(** * MAB budget engine (apps/api/src/lib/mab-engine.ts)

    UCB1 scoring with Thompson-sampling cold start, CUSUM change detection,
    reward folding and proportional budget allocation.

    Numbers.  The engine computes on JavaScript numbers.  They are modelled
    as real numbers ([R]), the reading the specification gives them, plus the
    one special value the engine produces on purpose, [Infinity].  Rounding
    error, overflow and NaN are outside this model; the UCB1 formula is read
    on its intended domain (a positive pull count, a total of at least one
    pull).

    Store.  Redis is a finite map from the arm key to the arm record.

    Randomness.  [thompsonSample] draws from [Math.random]; the value it
    returns for the i-th arm of a cycle is supplied by an oracle, so its
    rejection loop is taken to return. *)

From Stdlib Require Import Reals Lra ZArith List.
From stdpp Require Import gmap strings.
From Stdlib Require Import Ascii.

Open Scope R_scope.

(** ** JavaScript numbers *)

Inductive number : Type :=
  | Finite (x : R)
  | Infinity.

(** [a > b], [a < b], [a >= b] and [a === b] on finite numbers, as booleans. *)
Definition Rgtb (a b : R) : bool := if Rgt_dec a b then true else false.
Definition Rltb (a b : R) : bool := if Rlt_dec a b then true else false.
Definition Rgeb (a b : R) : bool := if Rge_dec a b then true else false.
Definition Reqb (a b : R) : bool := if Req_dec_T a b then true else false.

(** [Math.max] on finite numbers is [Rmax].  [Math.round] rounds to the
    nearest integer, a tie going towards plus infinity. *)
Definition Math_round (x : R) : R := IZR (Zfloor (x + 1 / 2)).

(** Order on scores: [Infinity] is above every finite number. *)
Definition number_lt (a b : number) : Prop :=
  match a, b with
  | Finite x, Finite y => x < y
  | Finite _, Infinity => True
  | Infinity, _ => False
  end.

(** ** Types *)

Record MABArm : Type := mkArm {
  campaignId : string;
  adSetId : string;
  creativeId : option string;
  pulls : R;
  totalReward : R;
  avgReward : R;
  ucbScore : number;
  alpha : R;
  beta : R;
  cusumPositive : R;
  cusumNegative : R;
  lastUpdated : Z
}.

Inductive Reason : Type :=
  | UCB1
  | THOMPSON_SAMPLING
  | CUSUM_RESET
  | MINIMUM_SPEND.

Record AllocationDecision : Type := mkDecision {
  dec_campaignId : string;
  dec_adSetId : string;
  allocatedBudgetPaisa : R;
  dec_ucbScore : number;
  dec_reason : Reason
}.

(** One element of the [scoredArms] array of [runMABAllocation]. *)
Record ScoredArm : Type := mkScored {
  sc_arm : MABArm;
  sc_score : number;
  sc_reason : Reason
}.

(** A row of [prisma.campaign.findMany] with its ad-set ids. *)
Record Campaign : Type := mkCampaign {
  campaign_id : string;
  adSets : list string
}.

(** The [agentLog] row written when CUSUM fires. *)
Record AgentLog : Type := mkAgentLog {
  agentName : string;
  action : string;
  in_campaignId : string;
  in_adSetId : string;
  in_roasReward : R;
  out_previousAvg : R;
  out_newReward : R
}.

(** ** Constants *)

Definition EXPLORATION_CONSTANT : R := 2.
Definition COLD_START_THRESHOLD : R := 30.
Definition CUSUM_THRESHOLD : R := 5.
Definition CUSUM_DRIFT_DELTA : R := 1 / 2.
Definition MIN_BUDGET_PAISA : R := 10000 * 100.

(** ** Redis *)

Definition mabArmKey (cId aId crId : string) : string :=
  "mab:arm:" +:+ cId +:+ ":" +:+ aId +:+ ":" +:+ crId.

(** ** UCB1 *)

Definition calculateUCB1 (arm : MABArm) (totalPulls : R) : number :=
  if Reqb (pulls arm) 0 then Infinity
  else Finite (avgReward arm
               + EXPLORATION_CONSTANT * sqrt (ln totalPulls / pulls arm)).

(** ** CUSUM *)

Definition updateCUSUM (arm : MABArm) (newReward : R) : MABArm * bool :=
  let expectedReward := avgReward arm in
  let innovation := newReward - expectedReward - CUSUM_DRIFT_DELTA in
  let newCusumPos := Rmax 0 (cusumPositive arm + innovation) in
  let newCusumNeg :=
    Rmax 0 (cusumNegative arm - innovation - CUSUM_DRIFT_DELTA) in
  let changeDetected :=
    Rgtb newCusumPos CUSUM_THRESHOLD || Rgtb newCusumNeg CUSUM_THRESHOLD in
  (mkArm (campaignId arm) (adSetId arm) (creativeId arm)
         (pulls arm) (totalReward arm) (avgReward arm) (ucbScore arm)
         (alpha arm) (beta arm)
         (if changeDetected then 0 else newCusumPos)
         (if changeDetected then 0 else newCusumNeg)
         (lastUpdated arm),
   changeDetected).

(** ** Load and save *)

(** The arm [loadArm] builds when the key is absent. *)
Definition newArm (cId aId : string) (now : Z) : MABArm :=
  mkArm cId aId None 0 0 0 Infinity 1 1 0 0 now.

Definition loadArm (redis : gmap string MABArm) (cId aId : string) (now : Z)
  : MABArm :=
  match redis !! mabArmKey cId aId "combined" with
  | Some data => data
  | None => newArm cId aId now
  end.

Definition saveArm (redis : gmap string MABArm) (arm : MABArm)
  : gmap string MABArm :=
  <[mabArmKey (campaignId arm) (adSetId arm) "combined" := arm]> redis.

(** ** Reward update *)

(** The value of [updatedArm] in [updateArmReward], from the arm that
    [updateCUSUM] returned. *)
Definition updatedArm (armAfterCusum : MABArm) (roasReward : R) (now : Z)
  : MABArm :=
  let newPulls := pulls armAfterCusum + 1 in
  let newTotal := totalReward armAfterCusum + roasReward in
  let newAvg := newTotal / newPulls in
  let isSuccess := Rgeb roasReward 2 in
  mkArm (campaignId armAfterCusum) (adSetId armAfterCusum)
        (creativeId armAfterCusum)
        newPulls newTotal newAvg (ucbScore armAfterCusum)
        (alpha armAfterCusum + (if isSuccess then 1 else 0))
        (beta armAfterCusum + (if isSuccess then 0 else 1))
        (cusumPositive armAfterCusum) (cusumNegative armAfterCusum)
        now.

(** [updateArmReward] returns the store after [saveArm] and the agent-log
    rows it created. *)
Definition updateArmReward (cId aId : string) (roasReward : R) (now : Z)
  (redis : gmap string MABArm) : gmap string MABArm * list AgentLog :=
  let arm := loadArm redis cId aId now in
  let '(armAfterCusum, changeDetected) := updateCUSUM arm roasReward in
  let logs :=
    if changeDetected
    then [mkAgentLog "MABEngine" "cusum_change_detected" cId aId roasReward
                     (avgReward arm) roasReward]
    else [] in
  (saveArm redis (updatedArm armAfterCusum roasReward now), logs).

(** The arm [updateArmReward] saves, from the arm it loaded. *)
Definition armAfterReward (arm : MABArm) (roasReward : R) (now : Z) : MABArm :=
  updatedArm (updateCUSUM arm roasReward).1 roasReward now.

(** [changeDetected] as [updateCUSUM] reports it. *)
Definition changeDetected (arm : MABArm) (newReward : R) : bool :=
  (updateCUSUM arm newReward).2.

(** ** Allocation cycle *)

(** The scoring callback of [arms.map], with the value [thompsonSample]
    returns for this arm. *)
Definition scoreArm (sample : R) (totalPulls : R) (arm : MABArm) : ScoredArm :=
  if Rltb (pulls arm) COLD_START_THRESHOLD
  then mkScored arm (Finite sample) THOMPSON_SAMPLING
  else mkScored arm (calculateUCB1 arm totalPulls) UCB1.

(** [isFinite(score) ? score : 2]. *)
Definition normalizedScore (score : number) : R :=
  match score with
  | Finite x => x
  | Infinity => 2
  end.

Definition totalScore (scored : list ScoredArm) : R :=
  foldl (fun s a => s + normalizedScore (sc_score a)) 0 scored.

(** [rawBudget] of one scored arm. *)
Definition rawBudget (totalDailyBudgetPaisa totalScore : R) (score : number)
  : R :=
  let proportion := normalizedScore score / totalScore in
  Math_round (totalDailyBudgetPaisa * proportion).

(** The [decisions] array computed from [scoredArms]. *)
Definition decisions (totalDailyBudgetPaisa : R) (scored : list ScoredArm)
  : list AllocationDecision :=
  let totalScore := totalScore scored in
  map (fun sa =>
         let allocatedBudget :=
           Rmax (rawBudget totalDailyBudgetPaisa totalScore (sc_score sa))
                MIN_BUDGET_PAISA in
         mkDecision (campaignId (sc_arm sa)) (adSetId (sc_arm sa))
                    allocatedBudget (sc_score sa) (sc_reason sa))
      scored.

Section Cycle.

(** [thompsonSample i arm] is the sample drawn for the arm at index [i]. *)
Variable thompsonSample : nat -> MABArm -> R.

Definition scoredArms (totalPulls : R) (arms : list MABArm)
  : list ScoredArm :=
  imap (fun i arm => scoreArm (thompsonSample i arm) totalPulls arm) arms.

(** The arms of all active ad sets, in campaign order. *)
Definition loadArms (redis : gmap string MABArm) (now : Z)
  (campaigns : list Campaign) : list MABArm :=
  flat_map (fun campaign =>
              map (fun adSet => loadArm redis (campaign_id campaign) adSet now)
                  (adSets campaign))
           campaigns.

(** The decisions [runMABAllocation] returns.  The writes that follow
    (each arm's [ucbScore], the budget-allocation rows) do not feed back
    into them. *)
Definition runMABAllocation (campaigns : list Campaign)
  (totalDailyBudgetPaisa : R) (now : Z) (redis : gmap string MABArm)
  : list AllocationDecision :=
  match campaigns with
  | [] => []
  | _ =>
      let arms := loadArms redis now campaigns in
      match arms with
      | [] => []
      | _ =>
          let totalPulls := foldl (fun s a => s + pulls a) 0 arms in
          decisions totalDailyBudgetPaisa (scoredArms totalPulls arms)
      end
  end.

End Cycle.

(** Sum of the allocated budgets of a cycle. *)
Definition totalAllocated (ds : list AllocationDecision) : R :=
  foldr (fun d s => allocatedBudgetPaisa d + s) 0 ds.

(** ** Histories of the store *)

(** Stores that arise from the empty store by reward updates whose rewards
    satisfy [P], and by keys expiring. *)
Inductive reachable (P : R -> Prop) : gmap string MABArm -> Prop :=
  | reach_empty : reachable P ∅
  | reach_update redis cId aId roasReward now :
      reachable P redis ->
      P roasReward ->
      reachable P (updateArmReward cId aId roasReward now redis).1
  | reach_expire redis key :
      reachable P redis ->
      reachable P (delete key redis).

(** ** Predicates on arms *)

(** Two arms agree on everything but the two CUSUM accumulators. *)
Definition sameStatistics (a b : MABArm) : Prop :=
  campaignId a = campaignId b /\ adSetId a = adSetId b /\
  creativeId a = creativeId b /\
  pulls a = pulls b /\ totalReward a = totalReward b /\
  avgReward a = avgReward b /\ ucbScore a = ucbScore b /\
  alpha a = alpha b /\ beta a = beta b /\
  lastUpdated a = lastUpdated b.

(** What the counters of a loaded arm satisfy when rewards are
    non-negative. *)
Definition countersOk (positive : Prop) (arm : MABArm) : Prop :=
  0 <= totalReward arm /\
  ((pulls arm = 0 /\ totalReward arm = 0 /\ avgReward arm = 0) \/
   (1 <= pulls arm /\ avgReward arm = totalReward arm / pulls arm /\
    (positive -> 0 < totalReward arm))).

(** ** Stores, keys and histories *)

(** Every arm sits under the key built from its own ids. *)
Definition wellKeyed (redis : gmap string MABArm) : Prop :=
  forall key arm,
    redis !! key = Some arm ->
    key = mabArmKey (campaignId arm) (adSetId arm) "combined".

(** The string holds no colon. *)
Fixpoint colonFree (s : string) : Prop :=
  match s with
  | EmptyString => True
  | String c rest => c <> ":"%char /\ colonFree rest
  end.

(** The store after a list of observations (reward, time) for one pair of
    ids. *)
Definition observeAll (cId aId : string) (redis : gmap string MABArm)
  (obs : list (R * Z)) : gmap string MABArm :=
  foldl (fun st o => (updateArmReward cId aId o.1 o.2 st).1) redis obs.

Fixpoint sumR (rs : list R) : R :=
  match rs with
  | [] => 0
  | r :: rest => r + sumR rest
  end.

(** Number of rewards that count as a success ([reward >= 2]). *)
Fixpoint successes (rs : list R) : R :=
  match rs with
  | [] => 0
  | r :: rest => (if Rgeb r 2 then 1 else 0) + successes rest
  end.

(** [updateCUSUM] applied [n] times with the same reward; the baseline
    [avgReward] stays as it is, as in the loops of the unit tests. *)
Fixpoint repeatCUSUM (n : nat) (arm : MABArm) (newReward : R) : MABArm :=
  match n with
  | O => arm
  | S m => (updateCUSUM (repeatCUSUM m arm newReward) newReward).1
  end.

(** ** Thompson sampling *)

(** [a <= b] on finite numbers, as a boolean. *)
Definition Rleb (a b : R) : bool := if Rle_dec a b then true else false.

(** The sampler reads [Math.random]: [rng n] is the value of its n-th call
    and [pos] counts the calls made so far.  The values are read as reals
    of the open interval (0, 1). *)

(** Box-Muller transform; it makes the calls [pos] and [pos + 1]. *)
Definition gaussianRandom (rng : nat -> R) (pos : nat) : R :=
  let u1 := rng pos in
  let u2 := rng (S pos) in
  sqrt (-2 * ln u1) * cos (2 * PI * u2).

(** The [while (true)] loop of [gammaSample] with its inner [do ... while]:
    a draw with [v <= 0] is drawn again, a draw that fails both acceptance
    tests starts the loop again.  [fuel] bounds the number of draws. *)
Fixpoint gammaLoop (fuel : nat) (d c : R) (rng : nat -> R) (pos : nat)
  : option (R * nat) :=
  match fuel with
  | O => None
  | S fuel' =>
      let x := gaussianRandom rng pos in
      let v := (1 + c * x) ^ 3 in
      if Rleb v 0 then gammaLoop fuel' d c rng (S (S pos))
      else
        let u := rng (S (S pos)) in
        if Rltb u (1 - 331 / 10000 * (x * x) ^ 2)
        then Some (d * v, S (S (S pos)))
        else if Rltb (ln u) (1 / 2 * x * x + d * (1 - v + ln v))
        then Some (d * v, S (S (S pos)))
        else gammaLoop fuel' d c rng (S (S (S pos)))
  end.

(** [gammaSample]: a shape below 1 is boosted by one and rescaled.  [fuel]
    bounds the recursion and the loop. *)
Fixpoint gammaSample (fuel : nat) (k : R) (rng : nat -> R) (pos : nat)
  : option (R * nat) :=
  match fuel with
  | O => None
  | S fuel' =>
      if Rltb k 1
      then match gammaSample fuel' (k + 1) rng pos with
           | Some (g, pos1) => Some (g * Rpower (rng pos1) (1 / k), S pos1)
           | None => None
           end
      else
        let d := k - 1 / 3 in
        let c := 1 / sqrt (9 * d) in
        gammaLoop fuel' d c rng pos
  end.

(** [thompsonSample]: the sample and the number of calls made, or [None]
    when the fuel runs out. *)
Definition thompsonSample (fuel : nat) (arm : MABArm) (rng : nat -> R)
  (pos : nat) : option (R * nat) :=
  match gammaSample fuel (alpha arm) rng pos with
  | Some (g1, pos1) =>
      match gammaSample fuel (beta arm) rng pos1 with
      | Some (g2, pos2) => Some (g1 / (g1 + g2), pos2)
      | None => None
      end
  | None => None
  end.

(** ** Persisting a cycle *)

(** The columns of a [budgetAllocation] row that the cycle writes; create
    and update set the same four. *)
Record BudgetAllocationRow : Type := mkRow {
  row_allocated : R;
  row_ucbScore : R;
  row_reallocationReason : string;
  row_triggerType : string
}.

Definition reasonName (r : Reason) : string :=
  match r with
  | UCB1 => "UCB1"
  | THOMPSON_SAMPLING => "THOMPSON_SAMPLING"
  | CUSUM_RESET => "CUSUM_RESET"
  | MINIMUM_SPEND => "MINIMUM_SPEND"
  end.

(** The row upserted for a decision. *)
Definition allocationRow (decision : AllocationDecision)
  : BudgetAllocationRow :=
  mkRow (allocatedBudgetPaisa decision)
        (match dec_ucbScore decision with
         | Finite x => x
         | Infinity => 99
         end)
        ("MAB(" +:+ reasonName (dec_reason decision) +:+ ")")
        "UCB_SCHEDULED".

(** [arm.ucbScore = score]. *)
Definition withUcbScore (arm : MABArm) (score : number) : MABArm :=
  mkArm (campaignId arm) (adSetId arm) (creativeId arm)
        (pulls arm) (totalReward arm) (avgReward arm) score
        (alpha arm) (beta arm) (cusumPositive arm) (cusumNegative arm)
        (lastUpdated arm).

(** The loop over [decisions] that ends [runMABAllocation].  [arms] is the
    array the loop searches and mutates in place; the table is keyed by
    campaign id and date, [today] being the date of the run. *)
Fixpoint persistDecisions (today : Z) (ds : list AllocationDecision)
  (arms : list MABArm) (redis : gmap string MABArm)
  (table : gmap (string * Z) BudgetAllocationRow)
  : gmap string MABArm * gmap (string * Z) BudgetAllocationRow :=
  match ds with
  | [] => (redis, table)
  | decision :: rest =>
      match list_find (fun a => campaignId a = dec_campaignId decision
                                /\ adSetId a = dec_adSetId decision) arms with
      | Some (i, arm) =>
          let arm' := withUcbScore arm (dec_ucbScore decision) in
          persistDecisions today rest (<[i := arm']> arms)
            (saveArm redis arm')
            (<[(dec_campaignId decision, today) := allocationRow decision]>
               table)
      | None => persistDecisions today rest arms redis table
      end
  end.

(** The store and the table after a whole cycle. *)
Definition runMABAllocationWrites (ts : nat -> MABArm -> R)
  (campaigns : list Campaign) (totalDailyBudgetPaisa : R) (now today : Z)
  (redis : gmap string MABArm)
  (table : gmap (string * Z) BudgetAllocationRow)
  : gmap string MABArm * gmap (string * Z) BudgetAllocationRow :=
  persistDecisions today
    (runMABAllocation ts campaigns totalDailyBudgetPaisa now redis)
    (loadArms redis now campaigns) redis table.

(** Two arms agree on what the engine has learned. *)
Definition sameLearned (a b : MABArm) : Prop :=
  pulls a = pulls b /\ totalReward a = totalReward b /\
  avgReward a = avgReward b /\ alpha a = alpha b /\ beta a = beta b /\
  cusumPositive a = cusumPositive b /\ cusumNegative a = cusumNegative b.

(** The last decision of a list for a campaign. *)
Fixpoint lastDecisionFor (cId : string) (ds : list AllocationDecision)
  : option AllocationDecision :=
  match ds with
  | [] => None
  | d :: rest =>
      match lastDecisionFor cId rest with
      | Some d' => Some d'
      | None => if decide (dec_campaignId d = cId) then Some d else None
      end
  end.

(** Some arm of the array carries the ids. *)
Definition hasIds (arms : list MABArm) (cId aId : string) : Prop :=
  exists arm, arm ∈ arms /\ campaignId arm = cId /\ adSetId arm = aId.

(** What a key stood for before a cycle: the stored arm, or a fresh one. *)
Definition learnedBefore (redis0 : gmap string MABArm) (key : string)
  : MABArm :=
  match redis0 !! key with
  | Some data => data
  | None => newArm "" "" 0
  end.

(** ** Applying a cycle to the platforms *)

Inductive Platform : Type :=
  | GOOGLE
  | META.

(** The columns of a campaign that [applyBudgetAllocations] selects;
    [budgetResourceName] is read from [targeting]. *)
Record CampaignRow : Type := mkCampaignRow {
  platform : Platform;
  externalId : option string;
  budgetResourceName : option string
}.

(** What [applyBudgetAllocations] does to the outside: the two platform
    calls and its two log lines. *)
Inductive ApplyEvent : Type :=
  | GoogleBudgetUpdate (creds resourceName : string) (dailyBudgetMicros : R)
  | MetaBudgetUpdate (metaCampaignId accessToken : string)
                     (dailyBudgetPaisa : R)
  | LogApplied (cId : string) (budget : R) (reason : Reason)
  | LogError (cId : string).

(** A string that is present and not empty, as an [if (s)] test sees it. *)
Definition truthy (o : option string) : option string :=
  match o with
  | Some s => if decide (s = "") then None else Some s
  | None => None
  end.

(** The body of the loop for one decision.  [dbThrows] and [apiThrows] say
    whether the campaign lookup and the platform call throw. *)
Definition applyDecision (googleCreds metaCreds : option string)
  (db : gmap string CampaignRow) (dbThrows apiThrows : bool)
  (decision : AllocationDecision) : list ApplyEvent :=
  if dbThrows then [LogError (dec_campaignId decision)]
  else
    match db !! dec_campaignId decision with
    | None => []
    | Some campaign =>
        match truthy (externalId campaign) with
        | None => []
        | Some ext =>
            let call :=
              match platform campaign, googleCreds, metaCreds with
              | GOOGLE, Some creds, _ =>
                  match truthy (budgetResourceName campaign) with
                  | Some name =>
                      Some (GoogleBudgetUpdate creds name
                              (allocatedBudgetPaisa decision * 10000))
                  | None => None
                  end
              | META, _, Some token =>
                  Some (MetaBudgetUpdate ext token
                          (allocatedBudgetPaisa decision))
              | _, _, _ => None
              end in
            let applied :=
              LogApplied (dec_campaignId decision)
                         (allocatedBudgetPaisa decision)
                         (dec_reason decision) in
            match call with
            | Some c =>
                if apiThrows
                then [c; LogError (dec_campaignId decision)]
                else [c; applied]
            | None => [applied]
            end
        end
    end.

(** [applyBudgetAllocations]; [i] is the index of the first decision, for
    the two oracles. *)
Fixpoint applyBudgetAllocations (googleCreds metaCreds : option string)
  (db : gmap string CampaignRow) (dbThrows apiThrows : nat -> bool)
  (i : nat) (decisions : list AllocationDecision) : list ApplyEvent :=
  match decisions with
  | [] => []
  | decision :: rest =>
      applyDecision googleCreds metaCreds db (dbThrows i) (apiThrows i)
                    decision
      ++ applyBudgetAllocations googleCreds metaCreds db dbThrows apiThrows
           (S i) rest
  end.

Definition isPlatformCall (e : ApplyEvent) : bool :=
  match e with
  | GoogleBudgetUpdate _ _ _ | MetaBudgetUpdate _ _ _ => true
  | LogApplied _ _ _ | LogError _ => false
  end.

(** Two arms agree on every field but [ucbScore].  The store keeps records
    as JSON, which has no infinite number, so an infinite [ucbScore] is not
    read back as written; no other field is affected. *)
Definition sameButUcbScore (a b : MABArm) : Prop :=
  campaignId a = campaignId b /\ adSetId a = adSetId b /\
  creativeId a = creativeId b /\
  pulls a = pulls b /\ totalReward a = totalReward b /\
  avgReward a = avgReward b /\
  alpha a = alpha b /\ beta a = beta b /\
  cusumPositive a = cusumPositive b /\ cusumNegative a = cusumNegative b /\
  lastUpdated a = lastUpdated b.

(** * Properties *)

(** ** Comparisons *)

Lemma Rgtb_true a b : Rgtb a b = true <-> a > b.
Proof. unfold Rgtb. destruct (Rgt_dec a b); split; intros; try easy. Qed.

Lemma Rgtb_false a b : Rgtb a b = false <-> a <= b.
Proof.
  unfold Rgtb. destruct (Rgt_dec a b); split; intros; try easy; lra.
Qed.

Lemma Rltb_true a b : Rltb a b = true <-> a < b.
Proof. unfold Rltb. destruct (Rlt_dec a b); split; intros; try easy. Qed.

Lemma Rltb_false a b : Rltb a b = false <-> b <= a.
Proof.
  unfold Rltb. destruct (Rlt_dec a b); split; intros; try easy; lra.
Qed.

Lemma Rgeb_true a b : Rgeb a b = true <-> a >= b.
Proof. unfold Rgeb. destruct (Rge_dec a b); split; intros; try easy. Qed.

Lemma Rgeb_false a b : Rgeb a b = false <-> a < b.
Proof.
  unfold Rgeb. destruct (Rge_dec a b); split; intros; try easy; lra.
Qed.

Lemma Reqb_true a b : Reqb a b = true <-> a = b.
Proof. unfold Reqb. destruct (Req_dec_T a b); split; intros; try easy. Qed.

Lemma Reqb_false a b : Reqb a b = false <-> a <> b.
Proof. unfold Reqb. destruct (Req_dec_T a b); split; intros; try easy. Qed.

Lemma Rmax_0_gt x c : 0 <= c -> (Rmax 0 x > c <-> x > c).
Proof.
  intros Hc. unfold Rmax. destruct (Rle_dec 0 x); split; intros; lra.
Qed.

Lemma Math_round_IZR (z : Z) (x : R) :
  IZR z - 1 / 2 <= x < IZR z + 1 / 2 -> Math_round x = IZR z.
Proof.
  intros H. unfold Math_round. f_equal. apply Zfloor_eq. lra.
Qed.

(** ** The store after a reward update *)

Lemma updateArmReward_store cId aId roasReward now redis :
  (updateArmReward cId aId roasReward now redis).1 =
  saveArm redis (armAfterReward (loadArm redis cId aId now) roasReward now).
Proof. reflexivity. Qed.

Lemma updateArmReward_logs cId aId roasReward now redis :
  (updateArmReward cId aId roasReward now redis).2 =
  if changeDetected (loadArm redis cId aId now) roasReward
  then [mkAgentLog "MABEngine" "cusum_change_detected" cId aId roasReward
                   (avgReward (loadArm redis cId aId now)) roasReward]
  else [].
Proof. reflexivity. Qed.

Lemma loadArm_absent redis cId aId now :
  redis !! mabArmKey cId aId "combined" = None ->
  loadArm redis cId aId now = newArm cId aId now.
Proof. intros H. unfold loadArm. now rewrite H. Qed.

Lemma saved_arm_lookup redis arm :
  saveArm redis arm !! mabArmKey (campaignId arm) (adSetId arm) "combined"
  = Some arm.
Proof. unfold saveArm. apply lookup_insert_eq. Qed.

Lemma changeDetected_spec arm newReward :
  changeDetected arm newReward = true <->
  Rmax 0 (cusumPositive arm + (newReward - avgReward arm - 1 / 2)) > 5
  \/ Rmax 0 (cusumNegative arm - (newReward - avgReward arm - 1 / 2) - 1 / 2)
     > 5.
Proof.
  unfold changeDetected, updateCUSUM; cbn [snd].
  unfold CUSUM_THRESHOLD, CUSUM_DRIFT_DELTA.
  rewrite orb_true_iff, !Rgtb_true. tauto.
Qed.

(** Invariants of arms carry over to every arm the engine can load. *)
Lemma reachable_arm_inv (P : R -> Prop) (I : MABArm -> Prop) :
  (forall cId aId now, I (newArm cId aId now)) ->
  (forall arm r now, I arm -> P r -> I (armAfterReward arm r now)) ->
  forall redis, reachable P redis ->
  forall cId aId now, I (loadArm redis cId aId now).
Proof.
  intros Hnew Hstep redis Hreach.
  assert (Hstored : forall key arm, redis !! key = Some arm -> I arm).
  { induction Hreach as [|redis c a r t Hreach IH Hr|redis k Hreach IH].
    - intros key arm Hl. rewrite lookup_empty in Hl. discriminate.
    - intros key arm. rewrite updateArmReward_store. unfold saveArm.
      rewrite lookup_insert. case_decide.
      + intros [= <-]. apply Hstep; [|exact Hr].
        unfold loadArm. destruct (redis !! _) eqn:E; eauto.
      + apply IH.
    - intros key arm. rewrite lookup_delete. case_decide; [discriminate|].
      apply IH. }
  intros cId aId now. unfold loadArm.
  destruct (redis !! _) eqn:E; eauto.
Qed.

(** ** CUSUM inside the reward update *)

(** C2.  For every store, arm ids and reward, the detector inside
    [updateArmReward] takes the average of the arm as loaded (before the
    reward is folded in) as its baseline: with
    [newCusumPos = max(0, cusumPositive + (reward - avgReward - 0.5))] and
    [newCusumNeg = max(0, cusumNegative - (reward - avgReward - 0.5) - 0.5)],
    a change is reported (flag and agent-log row) exactly when one of them
    exceeds 5; the saved arm then holds 0 in both accumulators, and holds
    [newCusumPos] and [newCusumNeg] otherwise, while its average is the
    updated one. *)
Theorem C2_cusum_uses_pre_update_average
  (redis : gmap string MABArm) (cId aId : string) (roasReward : R) (now : Z) :
  let arm := loadArm redis cId aId now in
  let innovation := roasReward - avgReward arm - 1 / 2 in
  let newCusumPos := Rmax 0 (cusumPositive arm + innovation) in
  let newCusumNeg := Rmax 0 (cusumNegative arm - innovation - 1 / 2) in
  let detected := newCusumPos > 5 \/ newCusumNeg > 5 in
  let result := updateArmReward cId aId roasReward now redis in
  exists saved,
    result.1 !! mabArmKey (campaignId arm) (adSetId arm) "combined"
      = Some saved /\
    (changeDetected arm roasReward = true <-> detected) /\
    (result.2 <> [] <-> detected) /\
    (detected -> cusumPositive saved = 0 /\ cusumNegative saved = 0) /\
    (~ detected ->
       cusumPositive saved = newCusumPos /\
       cusumNegative saved = newCusumNeg) /\
    avgReward saved = (totalReward arm + roasReward) / (pulls arm + 1).
Proof.
  intros arm innovation newCusumPos newCusumNeg detected result.
  exists (armAfterReward arm roasReward now).
  pose proof (changeDetected_spec arm roasReward) as Hd.
  fold innovation in Hd. fold newCusumPos newCusumNeg in Hd.
  fold detected in Hd.
  split; [|split; [|split; [|split; [|split]]]].
  - subst result. rewrite updateArmReward_store. fold arm.
    apply (saved_arm_lookup redis (armAfterReward arm roasReward now)).
  - exact Hd.
  - subst result. rewrite updateArmReward_logs. fold arm.
    rewrite <- Hd. destruct (changeDetected arm roasReward); split;
      intros; congruence.
  - intros Hdet. apply Hd in Hdet.
    unfold changeDetected, updateCUSUM in Hdet; cbn [snd] in Hdet.
    unfold armAfterReward, updatedArm, updateCUSUM; cbn.
    now rewrite Hdet.
  - intros Hnot.
    assert (Hf : changeDetected arm roasReward = false).
    { destruct (changeDetected arm roasReward); [|reflexivity].
      exfalso. apply Hnot, Hd. reflexivity. }
    unfold changeDetected, updateCUSUM in Hf; cbn [snd] in Hf.
    unfold armAfterReward, updatedArm, updateCUSUM; cbn.
    rewrite Hf. split; reflexivity.
  - reflexivity.
Qed.

(** The first observation of an absent arm: what [updateCUSUM] computes. *)
Lemma first_observation_cusum cId aId now r :
  cusumPositive (updateCUSUM (newArm cId aId now) r).1
    = (if changeDetected (newArm cId aId now) r then 0
       else Rmax 0 (r - 1 / 2)) /\
  cusumNegative (updateCUSUM (newArm cId aId now) r).1
    = (if changeDetected (newArm cId aId now) r then 0 else Rmax 0 (- r)).
Proof.
  unfold changeDetected, updateCUSUM, newArm, CUSUM_DRIFT_DELTA; cbn.
  replace (0 + (r - 0 - 1 / 2)) with (r - 1 / 2) by lra.
  replace (0 - (r - 0 - 1 / 2) - 1 / 2) with (- r) by lra.
  split; reflexivity.
Qed.

Lemma first_observation_detected cId aId now r :
  changeDetected (newArm cId aId now) r = true <-> r > 11 / 2 \/ r < -5.
Proof.
  rewrite changeDetected_spec. cbn.
  rewrite !Rmax_0_gt by lra. split; intros [H|H]; lra.
Qed.

(** The arm saved by a first observation of reward 3. *)
Lemma first_reward_three (redis : gmap string MABArm) (cId aId : string)
  (now : Z) :
  redis !! mabArmKey cId aId "combined" = None ->
  let result := updateArmReward cId aId 3 now redis in
  exists saved,
    result.1 !! mabArmKey cId aId "combined" = Some saved /\
    pulls saved = 1 /\ totalReward saved = 3 /\ avgReward saved = 3 /\
    alpha saved = 2 /\ beta saved = 1 /\
    cusumPositive saved = 5 / 2 /\ cusumNegative saved = 0 /\
    result.2 = [].
Proof.
  intros Habs result.
  exists (armAfterReward (newArm cId aId now) 3 now).
  assert (Hnd : changeDetected (newArm cId aId now) 3 = false).
  { destruct (changeDetected _ _) eqn:E; [|reflexivity].
    apply first_observation_detected in E. lra. }
  destruct (first_observation_cusum cId aId now 3) as [Hp Hn].
  rewrite Hnd in Hp, Hn.
  assert (Hge : Rgeb 3 2 = true) by (apply Rgeb_true; lra).
  subst result.
  rewrite updateArmReward_store, updateArmReward_logs.
  rewrite (loadArm_absent _ _ _ _ Habs), Hnd.
  split; [apply (saved_arm_lookup redis
                   (armAfterReward (newArm cId aId now) 3 now))|].
  unfold armAfterReward, updatedArm.
  cbn [pulls totalReward avgReward alpha beta cusumPositive cusumNegative].
  rewrite Hp, Hn, Hge. cbn.
  repeat split; try lra.
  - rewrite Rmax_right; lra.
  - rewrite Rmax_left; lra.
Qed.

(** C3 (as amended).  With the key absent, [updateArmReward] with reward 3
    saves an arm with [pulls = 1], [totalReward = 3], [avgReward = 3],
    [alpha = 2], [beta = 1], [cusumPositive = 2.5] and [cusumNegative = 0],
    and reports no change. *)
Theorem C3_first_reward_three
  (redis : gmap string MABArm) (cId aId : string) (now : Z) :
  redis !! mabArmKey cId aId "combined" = None ->
  let result := updateArmReward cId aId 3 now redis in
  exists saved,
    result.1 !! mabArmKey cId aId "combined" = Some saved /\
    pulls saved = 1 /\ totalReward saved = 3 /\ avgReward saved = 3 /\
    alpha saved = 2 /\ beta saved = 1 /\
    cusumPositive saved = 5 / 2 /\ cusumNegative saved = 0 /\
    result.2 = [].
Proof. exact (first_reward_three redis cId aId now). Qed.

Lemma C3_first_reward_three_witness :
  exists saved,
    (updateArmReward "cmp" "set" 3 0 ∅).1 !! mabArmKey "cmp" "set" "combined"
      = Some saved /\
    pulls saved = 1 /\ totalReward saved = 3 /\ avgReward saved = 3 /\
    alpha saved = 2 /\ beta saved = 1 /\
    cusumPositive saved = 5 / 2 /\ cusumNegative saved = 0 /\
    (updateArmReward "cmp" "set" 3 0 ∅).2 = [].
Proof.
  apply (C3_first_reward_three ∅ "cmp" "set" 0). apply lookup_empty.
Defined.

(** C3, as first stated, fails: after the first reward 3 the positive
    accumulator of the saved arm is 2.5, not 0. *)
Lemma C3_counterexample :
  exists saved,
    (updateArmReward "cmp" "set" 3 0 ∅).1 !! mabArmKey "cmp" "set" "combined"
      = Some saved /\
    ~ (pulls saved = 1 /\ avgReward saved = 3 /\ alpha saved = 2 /\
       beta saved = 1 /\ cusumPositive saved = 0 /\ cusumNegative saved = 0).
Proof.
  destruct (first_reward_three ∅ "cmp" "set" 0 (lookup_empty _))
    as (saved & Hl & _ & _ & _ & _ & _ & Hp & _).
  exists saved. split; [exact Hl|].
  intros (_ & _ & _ & _ & H0 & _). lra.
Qed.

(** C4 (as amended).  With the key absent, the first [updateArmReward]
    reports no change exactly when the reward lies in [-5, 5.5]; for a
    non-negative reward, exactly when it is at most 5.5.  A first reward
    above 5.5 is reported as a change. *)
Theorem C4_first_observation_detection
  (redis : gmap string MABArm) (cId aId : string) (roasReward : R) (now : Z) :
  redis !! mabArmKey cId aId "combined" = None ->
  (changeDetected (loadArm redis cId aId now) roasReward = false
     <-> -5 <= roasReward <= 11 / 2) /\
  ((updateArmReward cId aId roasReward now redis).2 = []
     <-> -5 <= roasReward <= 11 / 2) /\
  (0 <= roasReward ->
     (changeDetected (loadArm redis cId aId now) roasReward = false
        <-> roasReward <= 11 / 2)).
Proof.
  intros Habs. rewrite updateArmReward_logs, (loadArm_absent _ _ _ _ Habs).
  pose proof (first_observation_detected cId aId now roasReward) as Hd.
  destruct (changeDetected (newArm cId aId now) roasReward).
  - assert (roasReward > 11 / 2 \/ roasReward < -5) as Hr by now apply Hd.
    repeat split; intros; try discriminate; lra.
  - assert (~ (roasReward > 11 / 2 \/ roasReward < -5)) as Hr.
    { intros H. apply Hd in H. discriminate. }
    repeat split; intros; try reflexivity; lra.
Qed.

Lemma C4_first_observation_detection_witness :
  (changeDetected (loadArm ∅ "cmp" "set" 0) 3 = false
     <-> -5 <= 3 <= 11 / 2) /\
  ((updateArmReward "cmp" "set" 3 0 ∅).2 = [] <-> -5 <= 3 <= 11 / 2) /\
  (0 <= 3 ->
     (changeDetected (loadArm ∅ "cmp" "set" 0) 3 = false <-> 3 <= 11 / 2)).
Proof.
  apply (C4_first_observation_detection ∅ "cmp" "set" 3 0).
  apply lookup_empty.
Defined.

(** C4, as first stated, fails: a first reward of 6 on an absent arm is
    reported as a change. *)
Lemma C4_counterexample :
  changeDetected (loadArm ∅ "cmp" "set" 0) 6 = true /\
  (updateArmReward "cmp" "set" 6 0 ∅).2 <> [].
Proof.
  assert (H : changeDetected (newArm "cmp" "set" 0) 6 = true).
  { apply first_observation_detected. lra. }
  split.
  - exact H.
  - rewrite updateArmReward_logs.
    change (loadArm ∅ "cmp" "set" 0) with (newArm "cmp" "set" 0).
    rewrite H. discriminate.
Qed.

(** ** Frame of a detection *)

Lemma armAfterReward_fields arm r now :
  let saved := armAfterReward arm r now in
  campaignId saved = campaignId arm /\ adSetId saved = adSetId arm /\
  creativeId saved = creativeId arm /\
  pulls saved = pulls arm + 1 /\
  totalReward saved = totalReward arm + r /\
  avgReward saved = (totalReward arm + r) / (pulls arm + 1) /\
  ucbScore saved = ucbScore arm /\
  alpha saved = alpha arm + (if Rgeb r 2 then 1 else 0) /\
  beta saved = beta arm + (if Rgeb r 2 then 0 else 1) /\
  lastUpdated saved = now.
Proof. cbn. repeat split; reflexivity. Qed.

Lemma armAfterReward_detected arm r now :
  changeDetected arm r = true ->
  cusumPositive (armAfterReward arm r now) = 0 /\
  cusumNegative (armAfterReward arm r now) = 0.
Proof.
  unfold changeDetected, armAfterReward, updatedArm, updateCUSUM; cbn.
  intros ->. split; reflexivity.
Qed.

(** C7.  Take two calls of [updateArmReward] with the same ids and reward,
    on two stores whose loaded arms differ only in their accumulators; the
    first call detects a change (it writes the agent-log row) and the second
    detects nothing.  The two arms saved in the stores agree on every field
    but the accumulators: [pulls], [totalReward], [avgReward], [alpha] and
    [beta] have taken the reward in the same way.  The arm saved by the
    detecting call holds 0 in both accumulators. *)
Theorem C7_detection_resets_only_accumulators
  (redisA redisB : gmap string MABArm) (cId aId : string) (roasReward : R)
  (now : Z) :
  let a := loadArm redisA cId aId now in
  let b := loadArm redisB cId aId now in
  let resultA := updateArmReward cId aId roasReward now redisA in
  let resultB := updateArmReward cId aId roasReward now redisB in
  let key := mabArmKey (campaignId a) (adSetId a) "combined" in
  sameStatistics a b ->
  resultA.2 <> [] ->
  resultB.2 = [] ->
  exists savedA savedB,
    resultA.1 !! key = Some savedA /\
    resultB.1 !! key = Some savedB /\
    sameStatistics savedA savedB /\
    cusumPositive savedA = 0 /\ cusumNegative savedA = 0 /\
    pulls savedA = pulls a + 1 /\
    totalReward savedA = totalReward a + roasReward /\
    avgReward savedA = (totalReward a + roasReward) / (pulls a + 1) /\
    alpha savedA = alpha a + (if Rgeb roasReward 2 then 1 else 0) /\
    beta savedA = beta a + (if Rgeb roasReward 2 then 0 else 1).
Proof.
  intros a b resultA resultB key Hsame HlogA HlogB.
  assert (Hdet : changeDetected a roasReward = true).
  { subst resultA. rewrite updateArmReward_logs in HlogA. fold a in HlogA.
    destruct (changeDetected a roasReward); [reflexivity|contradiction]. }
  exists (armAfterReward a roasReward now), (armAfterReward b roasReward now).
  destruct Hsame as (Hc & Hs & Hcr & Hp & Ht & Ha & Hu & Hal & Hbe & Hl).
  destruct (armAfterReward_fields a roasReward now)
    as (Ac & As & Acr & Ap & At & Aa & Au & Aal & Abe & Al).
  destruct (armAfterReward_fields b roasReward now)
    as (Bc & Bs & Bcr & Bp & Bt & Ba & Bu & Bal & Bbe & Bl).
  destruct (armAfterReward_detected a roasReward now Hdet) as [Hz1 Hz2].
  split; [|split; [|split]].
  - subst resultA key. rewrite updateArmReward_store. fold a.
    apply (saved_arm_lookup redisA (armAfterReward a roasReward now)).
  - subst resultB key. rewrite updateArmReward_store. fold b.
    rewrite Hc, Hs.
    apply (saved_arm_lookup redisB (armAfterReward b roasReward now)).
  - unfold sameStatistics.
    rewrite Ac, As, Acr, Ap, At, Aa, Au, Aal, Abe, Al.
    rewrite Bc, Bs, Bcr, Bp, Bt, Ba, Bu, Bal, Bbe, Bl.
    rewrite Hc, Hs, Hcr, Hp, Ht, Hu, Hal, Hbe. repeat split; reflexivity.
  - repeat split; assumption.
Qed.

Lemma C7_detection_resets_only_accumulators_witness :
  let armA := mkArm "cmp" "set" None 1 3 3 Infinity 2 1 (5 / 2) 0 0 in
  let armB := mkArm "cmp" "set" None 1 3 3 Infinity 2 1 0 0 0 in
  let redisA : gmap string MABArm :=
    {[mabArmKey "cmp" "set" "combined" := armA]} in
  let redisB : gmap string MABArm :=
    {[mabArmKey "cmp" "set" "combined" := armB]} in
  exists savedA savedB,
    (updateArmReward "cmp" "set" 7 9 redisA).1
      !! mabArmKey "cmp" "set" "combined" = Some savedA /\
    (updateArmReward "cmp" "set" 7 9 redisB).1
      !! mabArmKey "cmp" "set" "combined" = Some savedB /\
    sameStatistics savedA savedB /\
    cusumPositive savedA = 0 /\ cusumNegative savedA = 0 /\
    pulls savedA = 1 + 1 /\
    totalReward savedA = 3 + 7 /\
    avgReward savedA = (3 + 7) / (1 + 1) /\
    alpha savedA = 2 + (if Rgeb 7 2 then 1 else 0) /\
    beta savedA = 1 + (if Rgeb 7 2 then 0 else 1).
Proof.
  intros armA armB redisA redisB.
  assert (HA : loadArm redisA "cmp" "set" 9 = armA).
  { unfold loadArm. subst redisA. now rewrite lookup_singleton_eq. }
  assert (HB : loadArm redisB "cmp" "set" 9 = armB).
  { unfold loadArm. subst redisB. now rewrite lookup_singleton_eq. }
  pose proof (C7_detection_resets_only_accumulators
                redisA redisB "cmp" "set" 7 9) as H.
  cbv zeta in H. rewrite !updateArmReward_logs, HA, HB in H.
  apply H.
  - unfold sameStatistics; cbn. repeat split; reflexivity.
  - assert (Hd : changeDetected armA 7 = true).
    { apply changeDetected_spec; cbn. left. rewrite Rmax_0_gt; lra. }
    rewrite Hd. discriminate.
  - assert (Hd : changeDetected armB 7 = false).
    { destruct (changeDetected armB 7) eqn:E; [|reflexivity].
      apply changeDetected_spec in E; cbn in E.
      rewrite !Rmax_0_gt in E by lra. lra. }
    now rewrite Hd.
Defined.

(** ** Invariants of reachable stores *)

Lemma load_after_first_update cId aId r now :
  loadArm (updateArmReward cId aId r now ∅).1 cId aId now
  = armAfterReward (newArm cId aId now) r now.
Proof.
  rewrite updateArmReward_store. unfold loadArm at 1.
  rewrite (loadArm_absent ∅ cId aId now (lookup_empty _)).
  change (mabArmKey cId aId "combined")
    with (mabArmKey (campaignId (armAfterReward (newArm cId aId now) r now))
                    (adSetId (armAfterReward (newArm cId aId now) r now))
                    "combined").
  now rewrite saved_arm_lookup.
Qed.

Lemma reachable_first_update (P : R -> Prop) cId aId r now :
  P r -> reachable P (updateArmReward cId aId r now ∅).1.
Proof. intros Hr. apply reach_update; [apply reach_empty|exact Hr]. Qed.

Lemma countersOk_reachable (P : R -> Prop) redis cId aId now :
  (forall r, P r -> 0 <= r) ->
  reachable P redis ->
  countersOk (forall r, P r -> 0 < r) (loadArm redis cId aId now).
Proof.
  intros Hnn Hreach. revert cId aId now.
  apply (reachable_arm_inv P); [| |exact Hreach].
  - intros c a t. unfold countersOk, newArm; cbn. split; [lra|].
    left. repeat split; reflexivity.
  - intros arm r t [Htot Hcases] Hr.
    destruct (armAfterReward_fields arm r t)
      as (_ & _ & _ & Hp & Ht & Ha & _).
    unfold countersOk. rewrite Hp, Ht, Ha.
    pose proof (Hnn r Hr) as Hr0.
    split; [lra|]. right.
    assert (0 <= pulls arm) as Hp0 by (destruct Hcases as [[-> _]|[? _]]; lra).
    split; [lra|]. split; [reflexivity|].
    intros Hpos. specialize (Hpos r Hr). lra.
Qed.

(** C8 (as amended).  In a store reached from the empty one by reward
    updates with non-negative rewards (keys may expire in between), every
    arm the engine loads, fresh or stored, satisfies
    [pulls = 0 -> totalReward = 0] and [totalReward = 0 <-> avgReward = 0];
    when all rewards are strictly positive it also satisfies
    [pulls = 0 <-> totalReward = 0]. *)
Theorem C8_zero_statistics
  (P : R -> Prop) (redis : gmap string MABArm) (cId aId : string) (now : Z) :
  (forall r, P r -> 0 <= r) ->
  reachable P redis ->
  let arm := loadArm redis cId aId now in
  (pulls arm = 0 -> totalReward arm = 0) /\
  (totalReward arm = 0 <-> avgReward arm = 0) /\
  ((forall r, P r -> 0 < r) -> (pulls arm = 0 <-> totalReward arm = 0)).
Proof.
  intros Hnn Hreach arm.
  destruct (countersOk_reachable P redis cId aId now Hnn Hreach)
    as [Htot Hcases].
  fold arm in Htot, Hcases.
  destruct Hcases as [(Hp & Ht & Ha)|(Hp & Ha & Hpos)].
  - rewrite Hp, Ht, Ha. tauto.
  - split; [intros; lra|]. split.
    + rewrite Ha. split.
      * intros ->. unfold Rdiv. lra.
      * intros H0.
        apply Rmult_integral in H0 as [H0|H0]; [exact H0|].
        assert (pulls arm <> 0) as Hne by lra.
        exfalso. revert H0. apply Rinv_neq_0_compat, Hne.
    + intros Hall. specialize (Hpos Hall). split; intros; lra.
Qed.

Lemma C8_zero_statistics_witness :
  let arm := loadArm (updateArmReward "cmp" "set" 3 0 ∅).1 "cmp" "set" 0 in
  (pulls arm = 0 -> totalReward arm = 0) /\
  (totalReward arm = 0 <-> avgReward arm = 0) /\
  ((forall r, r = 3 -> 0 < r) -> (pulls arm = 0 <-> totalReward arm = 0)).
Proof.
  apply (C8_zero_statistics (fun r => r = 3)
           (updateArmReward "cmp" "set" 3 0 ∅).1 "cmp" "set" 0).
  - intros r ->. lra.
  - apply reachable_first_update. reflexivity.
Defined.

(** C8, as first stated, fails: after one update with reward 0 the arm has
    [pulls = 1] and [totalReward = 0]. *)
Lemma C8_counterexample :
  let redis := (updateArmReward "cmp" "set" 0 0 ∅).1 in
  let arm := loadArm redis "cmp" "set" 0 in
  reachable (fun r => 0 <= r) redis /\
  pulls arm = 1 /\ totalReward arm = 0 /\ avgReward arm = 0 /\
  ~ (pulls arm = 0 <-> totalReward arm = 0).
Proof.
  intros redis arm. subst redis arm.
  split; [apply reachable_first_update; lra|].
  rewrite load_after_first_update.
  destruct (armAfterReward_fields (newArm "cmp" "set" 0) 0 0)
    as (_ & _ & _ & Hp & Ht & Ha & _).
  cbn [pulls totalReward newArm] in Hp, Ht, Ha.
  rewrite Hp, Ht, Ha.
  split; [lra|]. split; [lra|]. split; [unfold Rdiv; lra|].
  intros [_ H]. assert (0 + 0 = 0) as H0 by lra. specialize (H H0). lra.
Qed.

(** C10.  In a store reached from the empty one by reward updates with any
    rewards (keys may expire in between), every arm the engine loads, fresh
    or stored, satisfies [alpha + beta = pulls + 2]. *)
Theorem C10_alpha_beta_pulls
  (redis : gmap string MABArm) (cId aId : string) (now : Z) :
  reachable (fun _ => True) redis ->
  let arm := loadArm redis cId aId now in
  alpha arm + beta arm = pulls arm + 2.
Proof.
  intros Hreach. cbv zeta. revert cId aId now.
  apply (reachable_arm_inv (fun _ => True)
           (fun arm => alpha arm + beta arm = pulls arm + 2));
    [| |exact Hreach].
  - intros c a t. cbn. lra.
  - intros arm r t IH _.
    destruct (armAfterReward_fields arm r t)
      as (_ & _ & _ & Hp & _ & _ & _ & Hal & Hbe & _).
    rewrite Hp, Hal, Hbe. destruct (Rgeb r 2); lra.
Qed.

Lemma C10_alpha_beta_pulls_witness :
  let arm := loadArm (updateArmReward "cmp" "set" 3 0 ∅).1 "cmp" "set" 0 in
  alpha arm + beta arm = pulls arm + 2.
Proof.
  apply (C10_alpha_beta_pulls (updateArmReward "cmp" "set" 3 0 ∅).1
           "cmp" "set" 0).
  apply reachable_first_update. exact I.
Defined.

(** ** UCB1 score *)

Lemma calculateUCB1_unvisited arm totalPulls :
  pulls arm = 0 -> calculateUCB1 arm totalPulls = Infinity.
Proof.
  intros H. unfold calculateUCB1.
  now rewrite (proj2 (Reqb_true _ _) H).
Qed.

Lemma calculateUCB1_visited arm totalPulls :
  pulls arm <> 0 ->
  calculateUCB1 arm totalPulls =
  Finite (avgReward arm + 2 * sqrt (ln totalPulls / pulls arm)).
Proof.
  intros H. unfold calculateUCB1, EXPLORATION_CONSTANT.
  now rewrite (proj2 (Reqb_false _ _) H).
Qed.

Lemma ln_pos x : 1 < x -> 0 < ln x.
Proof. intros H. rewrite <- ln_1. apply ln_increasing; lra. Qed.

(** The exploration bonus shrinks as the pull count grows. *)
Lemma bonus_decreasing t p q :
  1 < t -> 0 < p -> p < q -> sqrt (ln t / q) < sqrt (ln t / p).
Proof.
  intros Ht Hp Hq. pose proof (ln_pos t Ht) as Hl.
  assert (/ q < / p) as Hinv by (apply Rinv_lt_contravar; nra).
  assert (0 < / q) as Hq0 by (apply Rinv_0_lt_compat; lra).
  apply sqrt_lt_1_alt. unfold Rdiv. split; nra.
Qed.

Lemma bonus_at_one p : sqrt (ln 1 / p) = 0.
Proof.
  rewrite ln_1. unfold Rdiv. rewrite Rmult_0_l. apply sqrt_0.
Qed.

(** C9.  The UCB1 score is a function of [avgReward], [pulls] and
    [totalPulls] alone.  [totalPulls] is the sum of the pull counts of the
    arms scored together, so no pull count exceeds it.  For
    [totalPulls >= 1] and an arm with [pulls >= 1]: two arms with the same
    [avgReward] and [pulls] get the same score; with [avgReward] and
    [totalPulls] fixed the score is strictly decreasing in [pulls], over
    the pull counts up to [totalPulls]; and raising [avgReward] by [delta]
    with [pulls] and [totalPulls] fixed raises the score by exactly
    [delta]. *)
Theorem C9_ucb1_score (arm : MABArm) (totalPulls : R) :
  1 <= totalPulls ->
  1 <= pulls arm ->
  (forall other,
      avgReward other = avgReward arm -> pulls other = pulls arm ->
      calculateUCB1 other totalPulls = calculateUCB1 arm totalPulls) /\
  (forall other,
      avgReward other = avgReward arm -> pulls arm < pulls other ->
      pulls other <= totalPulls ->
      number_lt (calculateUCB1 other totalPulls)
                (calculateUCB1 arm totalPulls)) /\
  (forall other delta,
      pulls other = pulls arm -> avgReward other = avgReward arm + delta ->
      exists s,
        calculateUCB1 arm totalPulls = Finite s /\
        calculateUCB1 other totalPulls = Finite (s + delta)).
Proof.
  intros Ht Hp.
  assert (pulls arm <> 0) as Hne by lra.
  rewrite (calculateUCB1_visited arm totalPulls Hne).
  split; [|split].
  - intros other Ha Hq. rewrite calculateUCB1_visited by (rewrite Hq; lra).
    now rewrite Ha, Hq.
  - intros other Ha Hq Hle.
    rewrite calculateUCB1_visited by lra. cbn. rewrite Ha.
    pose proof (bonus_decreasing totalPulls (pulls arm) (pulls other)).
    lra.
  - intros other delta Hq Ha.
    rewrite calculateUCB1_visited by (rewrite Hq; lra).
    eexists. split; [reflexivity|]. rewrite Ha, Hq. f_equal. lra.
Qed.

Lemma C9_ucb1_score_witness :
  let arm := mkArm "cmp" "set" None 50 100 2 Infinity 26 26 0 0 0 in
  (forall other,
      avgReward other = avgReward arm -> pulls other = pulls arm ->
      calculateUCB1 other 1000 = calculateUCB1 arm 1000) /\
  (forall other,
      avgReward other = avgReward arm -> pulls arm < pulls other ->
      pulls other <= 1000 ->
      number_lt (calculateUCB1 other 1000) (calculateUCB1 arm 1000)) /\
  (forall other delta,
      pulls other = pulls arm -> avgReward other = avgReward arm + delta ->
      exists s,
        calculateUCB1 arm 1000 = Finite s /\
        calculateUCB1 other 1000 = Finite (s + delta)).
Proof.
  intros arm.
  apply (C9_ucb1_score arm 1000); [lra|cbn; lra].
Defined.

(** ** Allocation cycle *)

Lemma runMABAllocation_decisions ts campaigns total now redis :
  runMABAllocation ts campaigns total now redis =
  decisions total
    (scoredArms ts
       (foldl (fun s a => s + pulls a) 0 (loadArms redis now campaigns))
       (loadArms redis now campaigns)).
Proof.
  unfold runMABAllocation. destruct campaigns as [|c cs]; [reflexivity|].
  destruct (loadArms redis now (c :: cs)); reflexivity.
Qed.

Lemma scoreArm_cold sample totalPulls arm :
  pulls arm < 30 ->
  scoreArm sample totalPulls arm = mkScored arm (Finite sample) THOMPSON_SAMPLING.
Proof.
  intros H. unfold scoreArm, COLD_START_THRESHOLD.
  now rewrite (proj2 (Rltb_true _ _) H).
Qed.

Lemma scoreArm_warm sample totalPulls arm :
  30 <= pulls arm ->
  scoreArm sample totalPulls arm =
  mkScored arm (calculateUCB1 arm totalPulls) UCB1.
Proof.
  intros H. unfold scoreArm, COLD_START_THRESHOLD.
  now rewrite (proj2 (Rltb_false _ _) H).
Qed.

Lemma decisions_lookup total scored i sa :
  scored !! i = Some sa ->
  decisions total scored !! i =
  Some (mkDecision (campaignId (sc_arm sa)) (adSetId (sc_arm sa))
          (Rmax (rawBudget total (totalScore scored) (sc_score sa))
                MIN_BUDGET_PAISA)
          (sc_score sa) (sc_reason sa)).
Proof.
  intros Hl. unfold decisions. rewrite list_lookup_fmap, Hl. reflexivity.
Qed.

Lemma scoredArms_lookup ts totalPulls arms i arm :
  arms !! i = Some arm ->
  scoredArms ts totalPulls arms !! i
  = Some (scoreArm (ts i arm) totalPulls arm).
Proof.
  intros Hl. unfold scoredArms. rewrite list_lookup_imap, Hl. reflexivity.
Qed.

Lemma scoreArm_arm sample totalPulls arm :
  sc_arm (scoreArm sample totalPulls arm) = arm.
Proof. unfold scoreArm. now destruct (Rltb _ _). Qed.

Lemma runMABAllocation_lookup ts campaigns total now redis i arm :
  loadArms redis now campaigns !! i = Some arm ->
  let arms := loadArms redis now campaigns in
  let totalPulls := foldl (fun s a => s + pulls a) 0 arms in
  let sa := scoreArm (ts i arm) totalPulls arm in
  runMABAllocation ts campaigns total now redis !! i =
  Some (mkDecision (campaignId arm) (adSetId arm)
          (Rmax (rawBudget total (totalScore (scoredArms ts totalPulls arms))
                           (sc_score sa))
                MIN_BUDGET_PAISA)
          (sc_score sa) (sc_reason sa)).
Proof.
  intros Hl arms totalPulls sa.
  rewrite runMABAllocation_decisions. fold arms. fold totalPulls.
  rewrite (decisions_lookup total _ i sa).
  - subst sa. now rewrite scoreArm_arm.
  - now apply scoredArms_lookup.
Qed.

(** C1.  The code at an unvisited arm.  For the fresh arm of an absent
    key ([pulls = 0]) [calculateUCB1] returns [Infinity], the score the
    allocation's [isFinite] stand-ins are written for; yet the scoring step
    of the cycle tests [pulls < COLD_START_THRESHOLD] first and never calls
    it: the arm gets its Thompson sample, a finite score, with method
    [THOMPSON_SAMPLING], and the decision the cycle emits for it carries
    that reason, not [UCB1]. *)
Theorem C1_unvisited_arm_in_cycle :
  let arm := loadArm ∅ "cmp" "set" 0 in
  let sa := scoreArm (1 / 2) 0 arm in
  pulls arm = 0 /\
  calculateUCB1 arm 0 = Infinity /\
  sc_score sa = Finite (1 / 2) /\ sc_score sa <> Infinity /\
  sc_reason sa = THOMPSON_SAMPLING /\ sc_reason sa <> UCB1 /\
  exists d,
    runMABAllocation (fun _ _ => 1 / 2) [mkCampaign "cmp" ["set"]]
                     2000000 0 ∅ = [d] /\
    dec_campaignId d = "cmp" /\ dec_adSetId d = "set" /\
    dec_ucbScore d = Finite (1 / 2) /\
    dec_reason d = THOMPSON_SAMPLING /\ dec_reason d <> UCB1.
Proof.
  intros arm sa. subst sa arm.
  change (loadArm ∅ "cmp" "set" 0) with (newArm "cmp" "set" 0).
  assert (Hs : scoreArm (1 / 2) 0 (newArm "cmp" "set" 0)
               = mkScored (newArm "cmp" "set" 0) (Finite (1 / 2))
                          THOMPSON_SAMPLING).
  { apply scoreArm_cold. cbn. lra. }
  rewrite Hs. cbn [sc_score sc_reason].
  split; [reflexivity|].
  split; [apply calculateUCB1_unvisited; reflexivity|].
  split; [reflexivity|]. split; [discriminate|].
  split; [reflexivity|]. split; [discriminate|].
  eexists. split.
  - rewrite runMABAllocation_decisions.
    change (loadArms ∅ 0 [mkCampaign "cmp" ["set"]])
      with [newArm "cmp" "set" 0].
    unfold scoredArms. cbn [imap foldl].
    rewrite scoreArm_cold by (cbn; lra). reflexivity.
  - cbn. repeat split; discriminate.
Qed.

(** ** Budgets *)

Lemma two_arm_shares :
  rawBudget 1000000 (0 + 7 / 2 + 3 / 2) (Finite (7 / 2)) = 700000 /\
  rawBudget 1000000 (0 + 7 / 2 + 3 / 2) (Finite (3 / 2)) = 300000.
Proof.
  unfold rawBudget, normalizedScore. split.
  - apply (Math_round_IZR 700000). lra.
  - apply (Math_round_IZR 300000). lra.
Qed.

Lemma two_arm_decisions arm1 arm2 reason1 reason2 :
  decisions 1000000 [mkScored arm1 (Finite (7 / 2)) reason1;
                     mkScored arm2 (Finite (3 / 2)) reason2]
  = [mkDecision (campaignId arm1) (adSetId arm1) 1000000
                (Finite (7 / 2)) reason1;
     mkDecision (campaignId arm2) (adSetId arm2) 1000000
                (Finite (3 / 2)) reason2].
Proof.
  unfold decisions, totalScore. cbn [foldl map sc_score sc_arm sc_reason].
  cbn [normalizedScore].
  destruct two_arm_shares as [-> ->].
  unfold MIN_BUDGET_PAISA.
  rewrite !Rmax_right by lra.
  replace (10000 * 100) with 1000000 by lra. reflexivity.
Qed.

(** C5 (as amended).  For two arms scored 3.5 and 1.5 and a total budget of
    1,000,000 the proportional shares before the floor are 700,000 (exactly
    70 percent of the budget) and 300,000, the higher-scored arm's share
    being strictly larger; after the floor [MIN_BUDGET_PAISA = 1,000,000]
    both arms are allocated exactly 1,000,000. *)
Theorem C5_two_arm_allocation (arm1 arm2 : MABArm) (reason1 reason2 : Reason) :
  let scored := [mkScored arm1 (Finite (7 / 2)) reason1;
                 mkScored arm2 (Finite (3 / 2)) reason2] in
  rawBudget 1000000 (totalScore scored) (Finite (7 / 2)) = 700000 /\
  rawBudget 1000000 (totalScore scored) (Finite (3 / 2)) = 300000 /\
  rawBudget 1000000 (totalScore scored) (Finite (7 / 2))
    > rawBudget 1000000 (totalScore scored) (Finite (3 / 2)) /\
  rawBudget 1000000 (totalScore scored) (Finite (7 / 2))
    = 7 / 10 * 1000000 /\
  map allocatedBudgetPaisa (decisions 1000000 scored) = [1000000; 1000000].
Proof.
  intros scored. subst scored. rewrite two_arm_decisions.
  unfold totalScore. cbn [foldl sc_score normalizedScore map
                          allocatedBudgetPaisa].
  destruct two_arm_shares as [-> ->].
  repeat split; lra.
Qed.

(** C5, as first stated, fails: with scores 3.5 and 1.5 and a budget of
    1,000,000 both arms are allocated 1,000,000, so the higher-scored arm
    does not get strictly more, and its allocation is the whole budget
    rather than about 70 percent of it. *)
Lemma C5_counterexample :
  let arm1 := mkArm "cmp" "set1" None 50 150 3 Infinity 41 11 0 0 0 in
  let arm2 := mkArm "cmp" "set2" None 50 50 1 Infinity 11 41 0 0 0 in
  exists d1 d2,
    decisions 1000000 [mkScored arm1 (Finite (7 / 2)) UCB1;
                       mkScored arm2 (Finite (3 / 2)) UCB1] = [d1; d2] /\
    dec_ucbScore d1 = Finite (7 / 2) /\ dec_ucbScore d2 = Finite (3 / 2) /\
    ~ (allocatedBudgetPaisa d1 > allocatedBudgetPaisa d2) /\
    allocatedBudgetPaisa d1 = 1000000.
Proof.
  intros arm1 arm2. do 2 eexists. split; [apply two_arm_decisions|].
  cbn. repeat split. lra.
Qed.

Lemma Forall2_map_self {A B} (f : A -> B) (Q : A -> B -> Prop) (l : list A) :
  (forall x, Q x (f x)) -> Forall2 Q l (map f l).
Proof. intros H. induction l; constructor; auto. Qed.

(** C6.  In every cycle each arm gets one decision whose budget is
    [max(round(totalBudget * normalizedScore / totalScore), MIN_BUDGET_PAISA)]
    with its own score and the cycle's total score: the floor is taken arm
    by arm and nothing is taken back elsewhere.  There are cycles whose
    allocated budgets sum to strictly more than the total budget, and the
    cycle still returns its decisions. *)
Theorem C6_floor_per_arm_may_overrun :
  (forall ts campaigns total now redis,
      let arms := loadArms redis now campaigns in
      let scored :=
        scoredArms ts (foldl (fun s a => s + pulls a) 0 arms) arms in
      let ds := runMABAllocation ts campaigns total now redis in
      length ds = length arms /\
      Forall2 (fun sa d =>
                 allocatedBudgetPaisa d =
                 Rmax (Math_round (total * normalizedScore (sc_score sa)
                                   / totalScore scored))
                      MIN_BUDGET_PAISA /\
                 dec_campaignId d = campaignId (sc_arm sa) /\
                 dec_adSetId d = adSetId (sc_arm sa) /\
                 dec_ucbScore d = sc_score sa /\
                 dec_reason d = sc_reason sa)
              scored ds) /\
  (exists ts campaigns total now redis,
      campaigns <> [] /\
      length (runMABAllocation ts campaigns total now redis) = 1%nat /\
      totalAllocated (runMABAllocation ts campaigns total now redis) > total).
Proof.
  split.
  - intros ts campaigns total now redis arms scored ds. subst ds.
    rewrite runMABAllocation_decisions. fold arms. fold scored. split.
    + unfold decisions. rewrite length_map. subst scored.
      unfold scoredArms. now rewrite length_imap.
    + unfold decisions. apply Forall2_map_self. intros sa. cbn.
      repeat split. unfold rawBudget. do 2 f_equal.
      unfold Rdiv. now rewrite Rmult_assoc.
  - exists (fun _ _ => 1 / 2), [mkCampaign "cmp" ["set"]], 500000, 0%Z, ∅.
    split; [discriminate|].
    rewrite runMABAllocation_decisions.
    change (loadArms ∅ 0 [mkCampaign "cmp" ["set"]])
      with [newArm "cmp" "set" 0].
    unfold scoredArms. cbn [imap foldl].
    rewrite scoreArm_cold by (cbn; lra).
    unfold decisions, totalScore, totalAllocated.
    cbn [map foldl foldr length sc_score normalizedScore
         allocatedBudgetPaisa].
    split; [reflexivity|].
    unfold rawBudget, normalizedScore, MIN_BUDGET_PAISA.
    rewrite (Math_round_IZR 500000) by lra.
    rewrite Rmax_right by lra. lra.
Qed.

(** * Further properties of the engine *)

(** ** Keys *)

Lemma append_length_sum (s t : string) :
  String.length (s +:+ t) = (String.length s + String.length t)%nat.
Proof.
  induction s as [|c s IH]; [reflexivity|].
  change (S (String.length (s +:+ t))
          = S (String.length s + String.length t)). now f_equal.
Qed.

Lemma append_inv_tail (s s' t : string) : s +:+ t = s' +:+ t -> s = s'.
Proof.
  revert s'. induction s as [|c s IH]; intros [|c' s'] H.
  - reflexivity.
  - apply (f_equal String.length) in H.
    rewrite !append_length_sum in H. cbn in H. lia.
  - apply (f_equal String.length) in H.
    rewrite !append_length_sum in H. cbn in H. lia.
  - cbn in H. injection H as -> H. f_equal. now apply IH.
Qed.

Lemma colon_split (s s' r r' : string) :
  colonFree s -> colonFree s' ->
  s +:+ String ":" r = s' +:+ String ":" r' -> s = s' /\ r = r'.
Proof.
  revert s'. induction s as [|c s IH]; intros [|c' s'] Hs Hs' H; cbn in H.
  - injection H as ->. split; reflexivity.
  - injection H as Hc _. destruct Hs' as [Hne _]. now symmetry in Hc.
  - injection H as Hc _. destruct Hs as [Hne _]. contradiction.
  - injection H as -> H. destruct Hs as [_ Hs], Hs' as [_ Hs'].
    destruct (IH s' Hs Hs' H) as [-> ->]. split; reflexivity.
Qed.

(** X1.  Two pairs of ids whose campaign ids hold no colon get the same arm
    key only if they are the same pair. *)
Theorem X1_mabArmKey_injective (cId aId cId' aId' crId : string) :
  colonFree cId -> colonFree cId' ->
  mabArmKey cId aId crId = mabArmKey cId' aId' crId ->
  cId = cId' /\ aId = aId'.
Proof.
  intros Hc Hc' H. unfold mabArmKey in H.
  apply (String.app_inj "mab:arm:") in H.
  apply colon_split in H as [-> H]; [|assumption..].
  split; [reflexivity|]. now apply append_inv_tail in H.
Qed.

Lemma X1_mabArmKey_injective_witness :
  "cmp" = "cmp" /\ "set" = "set".
Proof.
  apply (X1_mabArmKey_injective "cmp" "set" "cmp" "set" "combined").
  - cbn. repeat split; discriminate.
  - cbn. repeat split; discriminate.
  - reflexivity.
Defined.

(** ** Reachable stores *)

Lemma armAfterReward_key arm r now :
  mabArmKey (campaignId (armAfterReward arm r now))
            (adSetId (armAfterReward arm r now)) "combined"
  = mabArmKey (campaignId arm) (adSetId arm) "combined".
Proof. reflexivity. Qed.

Lemma loadArm_key redis cId aId now :
  wellKeyed redis ->
  mabArmKey (campaignId (loadArm redis cId aId now))
            (adSetId (loadArm redis cId aId now)) "combined"
  = mabArmKey cId aId "combined".
Proof.
  intros Hwk. unfold loadArm.
  destruct (redis !! mabArmKey cId aId "combined") as [data|] eqn:E.
  - symmetry. now apply Hwk.
  - reflexivity.
Qed.

Lemma saveArm_wellKeyed redis arm :
  wellKeyed redis -> wellKeyed (saveArm redis arm).
Proof.
  intros Hwk key x. unfold saveArm. rewrite lookup_insert.
  case_decide as Hk.
  - intros [= <-]. now symmetry.
  - apply Hwk.
Qed.

Lemma reachable_wellKeyed (P : R -> Prop) redis :
  reachable P redis -> wellKeyed redis.
Proof.
  induction 1 as [|redis c a r t _ IH _|redis k _ IH].
  - intros key arm Hl. rewrite lookup_empty in Hl. discriminate.
  - rewrite updateArmReward_store. now apply saveArm_wellKeyed.
  - intros key arm. rewrite lookup_delete. case_decide; [discriminate|].
    apply IH.
Qed.

Lemma update_lookup_other redis cId aId r now key :
  wellKeyed redis ->
  key <> mabArmKey cId aId "combined" ->
  (updateArmReward cId aId r now redis).1 !! key = redis !! key.
Proof.
  intros Hwk Hne. rewrite updateArmReward_store. unfold saveArm.
  rewrite armAfterReward_key, (loadArm_key _ _ _ _ Hwk).
  now rewrite lookup_insert_ne by congruence.
Qed.

Lemma update_then_load redis cId aId r now now' :
  wellKeyed redis ->
  loadArm (updateArmReward cId aId r now redis).1 cId aId now'
  = armAfterReward (loadArm redis cId aId now) r now.
Proof.
  intros Hwk. rewrite updateArmReward_store. unfold loadArm at 1.
  rewrite <- (loadArm_key redis cId aId now Hwk) at 1.
  rewrite <- (armAfterReward_key (loadArm redis cId aId now) r now).
  now rewrite saved_arm_lookup.
Qed.

Lemma sameButUcbScore_refl a : sameButUcbScore a a.
Proof. unfold sameButUcbScore. repeat split; reflexivity. Qed.

(** X2.  In a store reached from the empty one by reward updates, a reward
    update for a pair of ids writes one key only, the key of that pair; the
    record under that key, and the arm loaded for the pair afterwards,
    agree with the arm the update computed from the arm it loaded on every
    field but [ucbScore]. *)
Theorem X2_update_writes_own_key
  (P : R -> Prop) (redis : gmap string MABArm) (cId aId : string)
  (roasReward : R) (now : Z) :
  reachable P redis ->
  let redis' := (updateArmReward cId aId roasReward now redis).1 in
  let computed := armAfterReward (loadArm redis cId aId now) roasReward now in
  (forall key,
      key <> mabArmKey cId aId "combined" -> redis' !! key = redis !! key) /\
  (exists saved,
      redis' !! mabArmKey cId aId "combined" = Some saved /\
      sameButUcbScore saved computed) /\
  (forall now', sameButUcbScore (loadArm redis' cId aId now') computed).
Proof.
  intros Hreach redis' computed. subst redis' computed.
  pose proof (reachable_wellKeyed P redis Hreach) as Hwk.
  split; [|split].
  - intros key Hne. now apply update_lookup_other.
  - exists (armAfterReward (loadArm redis cId aId now) roasReward now).
    split; [|apply sameButUcbScore_refl].
    rewrite updateArmReward_store. unfold saveArm.
    rewrite armAfterReward_key, (loadArm_key _ _ _ _ Hwk).
    apply lookup_insert_eq.
  - intros now'. rewrite update_then_load by exact Hwk.
    apply sameButUcbScore_refl.
Qed.

Lemma X2_update_writes_own_key_witness :
  let redis := (updateArmReward "cmp" "set" 3 0 ∅).1 in
  let redis' := (updateArmReward "cmp" "set" 1 5 redis).1 in
  let computed := armAfterReward (loadArm redis "cmp" "set" 5) 1 5 in
  (forall key,
      key <> mabArmKey "cmp" "set" "combined" ->
      redis' !! key = redis !! key) /\
  (exists saved,
      redis' !! mabArmKey "cmp" "set" "combined" = Some saved /\
      sameButUcbScore saved computed) /\
  (forall now', sameButUcbScore (loadArm redis' "cmp" "set" now') computed).
Proof.
  intros redis.
  apply (X2_update_writes_own_key (fun _ => True) redis "cmp" "set" 1 5).
  apply reachable_first_update. exact I.
Defined.

(** X3.  In a reachable store, a reward update for one pair of ids leaves
    the arm loaded for any other pair unchanged, as long as the campaign
    ids hold no colon. *)
Theorem X3_update_isolated
  (P : R -> Prop) (redis : gmap string MABArm) (cId aId cId' aId' : string)
  (roasReward : R) (now now' : Z) :
  reachable P redis ->
  colonFree cId -> colonFree cId' ->
  (cId, aId) <> (cId', aId') ->
  loadArm (updateArmReward cId aId roasReward now redis).1 cId' aId' now'
  = loadArm redis cId' aId' now'.
Proof.
  intros Hreach Hc Hc' Hne.
  pose proof (reachable_wellKeyed P redis Hreach) as Hwk.
  unfold loadArm. rewrite update_lookup_other; [reflexivity|exact Hwk|].
  intros Hk. apply Hne.
  symmetry in Hk.
  destruct (colon_split cId cId' (aId +:+ ":combined") (aId' +:+ ":combined")
              Hc Hc') as [-> Ha].
  { unfold mabArmKey in Hk. now apply (String.app_inj "mab:arm:") in Hk. }
  now apply append_inv_tail in Ha as ->.
Qed.

Lemma X3_update_isolated_witness :
  loadArm (updateArmReward "cmp" "set1" 1 5
             (updateArmReward "cmp" "set2" 3 0 ∅).1).1 "cmp" "set2" 9
  = loadArm (updateArmReward "cmp" "set2" 3 0 ∅).1 "cmp" "set2" 9.
Proof.
  apply (X3_update_isolated (fun _ => True)).
  - apply reachable_first_update. exact I.
  - cbn. repeat split; discriminate.
  - cbn. repeat split; discriminate.
  - discriminate.
Defined.

(** ** Invariants of loaded arms *)

Lemma updateCUSUM_bounds arm r :
  let arm' := (updateCUSUM arm r).1 in
  0 <= cusumPositive arm' <= 5 /\ 0 <= cusumNegative arm' <= 5.
Proof.
  unfold updateCUSUM, CUSUM_THRESHOLD; cbn.
  set (p := Rmax 0 _). set (n := Rmax 0 _).
  assert (0 <= p) by apply Rmax_l. assert (0 <= n) by apply Rmax_l.
  destruct (Rgtb p 5) eqn:Ep; destruct (Rgtb n 5) eqn:En; cbn;
    try (split; lra).
  apply Rgtb_false in Ep, En. split; lra.
Qed.

(** X4.  Every arm the engine loads from a reachable store, fresh or
    stored, has both CUSUM accumulators between 0 and the threshold 5:
    an accumulator above the threshold is never saved. *)
Theorem X4_accumulators_bounded
  (P : R -> Prop) (redis : gmap string MABArm) (cId aId : string) (now : Z) :
  reachable P redis ->
  let arm := loadArm redis cId aId now in
  0 <= cusumPositive arm <= 5 /\ 0 <= cusumNegative arm <= 5.
Proof.
  intros Hreach. cbv zeta. revert cId aId now.
  apply (reachable_arm_inv P
           (fun arm => 0 <= cusumPositive arm <= 5
                       /\ 0 <= cusumNegative arm <= 5));
    [| |exact Hreach].
  - intros c a t. cbn. lra.
  - intros arm r t _ _.
    exact (updateCUSUM_bounds arm r).
Qed.

Lemma X4_accumulators_bounded_witness :
  let arm := loadArm (updateArmReward "cmp" "set" 3 0 ∅).1 "cmp" "set" 0 in
  0 <= cusumPositive arm <= 5 /\ 0 <= cusumNegative arm <= 5.
Proof.
  apply (X4_accumulators_bounded (fun _ => True)
           (updateArmReward "cmp" "set" 3 0 ∅).1 "cmp" "set" 0).
  apply reachable_first_update. exact I.
Defined.

(** X5.  Every arm the engine loads from a reachable store has
    [alpha >= 1] and [beta >= 1], a pull count that is 0 or at least 1, and
    [avgReward * pulls = totalReward]; an arm found in the store has at
    least one pull. *)
Theorem X5_priors_and_mean
  (P : R -> Prop) (redis : gmap string MABArm) (cId aId : string) (now : Z) :
  reachable P redis ->
  let arm := loadArm redis cId aId now in
  1 <= alpha arm /\ 1 <= beta arm /\
  (pulls arm = 0 \/ 1 <= pulls arm) /\
  avgReward arm * pulls arm = totalReward arm /\
  (is_Some (redis !! mabArmKey cId aId "combined") -> 1 <= pulls arm).
Proof.
  intros Hreach arm.
  assert (Hinv : 1 <= alpha arm /\ 1 <= beta arm /\
                 ((pulls arm = 0 /\ totalReward arm = 0 /\ avgReward arm = 0)
                  \/ (1 <= pulls arm
                      /\ avgReward arm = totalReward arm / pulls arm))).
  { subst arm. revert cId aId now.
    apply (reachable_arm_inv P
             (fun arm =>
                1 <= alpha arm /\ 1 <= beta arm /\
                ((pulls arm = 0 /\ totalReward arm = 0 /\ avgReward arm = 0)
                 \/ (1 <= pulls arm
                     /\ avgReward arm = totalReward arm / pulls arm))));
      [| |exact Hreach].
    - intros c a t. cbn. split; [lra|]. split; [lra|].
      left. repeat split; reflexivity.
    - intros x r t (Ha & Hb & Hc) _.
      destruct (armAfterReward_fields x r t)
        as (_ & _ & _ & Hp & Ht & Hav & _ & Hal & Hbe & _).
      rewrite Hp, Ht, Hav, Hal, Hbe.
      split; [destruct (Rgeb r 2); lra|].
      split; [destruct (Rgeb r 2); lra|].
      right. split; [|reflexivity].
      destruct Hc as [(-> & _)|(? & _)]; lra. }
  destruct Hinv as (Ha & Hb & Hc).
  split; [exact Ha|]. split; [exact Hb|].
  assert (Hstored : is_Some (redis !! mabArmKey cId aId "combined") ->
                    1 <= pulls arm).
  { intros [x Hx].
    assert (Hx1 : forall key y, redis !! key = Some y -> 1 <= pulls y).
    { clear -Hreach.
      induction Hreach as [|redis c a r t Hreach IH _|redis k _ IH].
      - intros key y Hl. rewrite lookup_empty in Hl. discriminate.
      - intros key y. rewrite updateArmReward_store. unfold saveArm.
        rewrite lookup_insert. case_decide; [|apply IH].
        intros [= <-].
        destruct (armAfterReward_fields (loadArm redis c a t) r t)
          as (_ & _ & _ & Hp & _).
        rewrite Hp. unfold loadArm.
        destruct (redis !! _) eqn:E.
        + specialize (IH _ _ E). lra.
        + cbn. lra.
      - intros key y. rewrite lookup_delete. case_decide; [discriminate|].
        apply IH. }
    subst arm. unfold loadArm. rewrite Hx. eapply Hx1, Hx. }
  destruct Hc as [(Hp & Ht & Hav)|(Hp & Hav)].
  - split; [now left|]. split; [rewrite Hp, Ht; lra|exact Hstored].
  - split; [now right|]. split; [|exact Hstored].
    rewrite Hav. field. lra.
Qed.

Lemma X5_priors_and_mean_witness :
  let redis := (updateArmReward "cmp" "set" 3 0 ∅).1 in
  let arm := loadArm redis "cmp" "set" 0 in
  1 <= alpha arm /\ 1 <= beta arm /\
  (pulls arm = 0 \/ 1 <= pulls arm) /\
  avgReward arm * pulls arm = totalReward arm /\
  (is_Some (redis !! mabArmKey "cmp" "set" "combined") -> 1 <= pulls arm).
Proof.
  apply (X5_priors_and_mean (fun _ => True)
           (updateArmReward "cmp" "set" 3 0 ∅).1 "cmp" "set" 0).
  apply reachable_first_update. exact I.
Defined.

(** ** The statistics of a history *)

Lemma sumR_snoc rs r : sumR (rs ++ [r]) = sumR rs + r.
Proof. induction rs as [|x rs IH]; cbn; [lra|rewrite IH; lra]. Qed.

Lemma successes_snoc rs r :
  successes (rs ++ [r]) = successes rs + (if Rgeb r 2 then 1 else 0).
Proof. induction rs as [|x rs IH]; cbn; [lra|rewrite IH; lra]. Qed.

Lemma observeAll_snoc cId aId redis obs o :
  observeAll cId aId redis (obs ++ [o])
  = (updateArmReward cId aId o.1 o.2 (observeAll cId aId redis obs)).1.
Proof. unfold observeAll. now rewrite foldl_snoc. Qed.

Lemma observeAll_arm redis cId aId obs :
  redis !! mabArmKey cId aId "combined" = None ->
  forall now,
    let arm := loadArm (observeAll cId aId redis obs) cId aId now in
    campaignId arm = cId /\ adSetId arm = aId /\
    pulls arm = INR (length obs) /\
    totalReward arm = sumR obs.*1 /\
    alpha arm = 1 + successes obs.*1 /\
    beta arm = 1 + (INR (length obs) - successes obs.*1) /\
    (obs <> [] -> avgReward arm = sumR obs.*1 / INR (length obs)).
Proof.
  intros Habs. induction obs as [|o obs IH] using rev_ind; intros now.
  - cbn. rewrite (loadArm_absent _ _ _ _ Habs). cbn.
    repeat split; try lra; try reflexivity; try (intros H; contradiction).
  - cbv zeta. rewrite observeAll_snoc.
    set (st := observeAll cId aId redis obs) in *.
    destruct (IH o.2) as (Hc & Ha & Hp & Ht & Hal & Hbe & _).
    set (old := loadArm st cId aId o.2) in *.
    assert (Hload : loadArm (updateArmReward cId aId o.1 o.2 st).1
                            cId aId now
                    = armAfterReward old o.1 o.2).
    { rewrite updateArmReward_store. fold old. unfold loadArm at 1.
      rewrite <- Hc at 1. rewrite <- Ha at 1.
      rewrite <- (armAfterReward_key old o.1 o.2).
      now rewrite saved_arm_lookup. }
    rewrite Hload.
    destruct (armAfterReward_fields old o.1 o.2)
      as (Fc & Fa & _ & Fp & Ft & Fav & _ & Fal & Fbe & _).
    rewrite Fc, Fa, Fp, Ft, Fav, Fal, Fbe, Hc, Ha, Hp, Ht, Hal, Hbe.
    rewrite fmap_app, length_app, plus_INR.
    change (fst <$> [o]) with [o.1].
    rewrite sumR_snoc, successes_snoc.
    cbn [length INR].
    repeat split; try lra; destruct (Rgeb o.1 2); lra.
Qed.

(** X6.  Starting with the key of a pair absent, after any list of reward
    updates for that pair the arm loaded for it has [pulls] equal to the
    number of observations, [totalReward] equal to the sum of the rewards,
    [alpha - 1] equal to the number of rewards that are at least 2,
    [beta - 1] equal to the number of the others and, once there is an
    observation, [avgReward] equal to the arithmetic mean of the rewards. *)
Theorem X6_statistics_of_history
  (redis : gmap string MABArm) (cId aId : string) (obs : list (R * Z))
  (now : Z) :
  redis !! mabArmKey cId aId "combined" = None ->
  let arm := loadArm (observeAll cId aId redis obs) cId aId now in
  pulls arm = INR (length obs) /\
  totalReward arm = sumR obs.*1 /\
  alpha arm = 1 + successes obs.*1 /\
  beta arm = 1 + (INR (length obs) - successes obs.*1) /\
  (obs <> [] -> avgReward arm = sumR obs.*1 / INR (length obs)).
Proof.
  intros Habs arm.
  destruct (observeAll_arm redis cId aId obs Habs now) as (_ & _ & H).
  exact H.
Qed.

Lemma X6_statistics_of_history_witness :
  let obs := [(3, 0%Z); (1, 5%Z)] in
  let arm := loadArm (observeAll "cmp" "set" ∅ obs) "cmp" "set" 9 in
  pulls arm = INR (length obs) /\
  totalReward arm = sumR obs.*1 /\
  alpha arm = 1 + successes obs.*1 /\
  beta arm = 1 + (INR (length obs) - successes obs.*1) /\
  (obs <> [] -> avgReward arm = sumR obs.*1 / INR (length obs)).
Proof.
  intros obs.
  apply (X6_statistics_of_history ∅ "cmp" "set" obs 9). apply lookup_empty.
Defined.

(** ** Sustained drift against a fixed baseline *)

Lemma updateCUSUM_quiet arm r :
  Rmax 0 (cusumPositive arm + (r - avgReward arm - 1 / 2)) <= 5 ->
  Rmax 0 (cusumNegative arm - (r - avgReward arm - 1 / 2) - 1 / 2) <= 5 ->
  changeDetected arm r = false /\
  avgReward (updateCUSUM arm r).1 = avgReward arm /\
  cusumPositive (updateCUSUM arm r).1
    = Rmax 0 (cusumPositive arm + (r - avgReward arm - 1 / 2)) /\
  cusumNegative (updateCUSUM arm r).1
    = Rmax 0 (cusumNegative arm - (r - avgReward arm - 1 / 2) - 1 / 2).
Proof.
  intros Hp Hn.
  assert (Hd : changeDetected arm r = false).
  { destruct (changeDetected arm r) eqn:E; [|reflexivity].
    apply changeDetected_spec in E. lra. }
  split; [exact Hd|]. split; [reflexivity|].
  unfold changeDetected, updateCUSUM in Hd; cbn [snd] in Hd.
  unfold updateCUSUM; cbn. rewrite Hd. split; reflexivity.
Qed.

Lemma repeatCUSUM_avg n arm r :
  avgReward (repeatCUSUM n arm r) = avgReward arm.
Proof. induction n as [|n IH]; [reflexivity|]. cbn. exact IH. Qed.

Lemma repeatCUSUM_up arm r n :
  let c := r - avgReward arm - 1 / 2 in
  0 < c ->
  0 <= cusumPositive arm ->
  0 <= cusumNegative arm <= 5 ->
  cusumPositive arm + INR n * c <= 5 ->
  cusumPositive (repeatCUSUM n arm r) = cusumPositive arm + INR n * c /\
  0 <= cusumNegative (repeatCUSUM n arm r) <= 5 /\
  (forall m, (m < n)%nat -> changeDetected (repeatCUSUM m arm r) r = false).
Proof.
  intros c Hc Hp Hn. induction n as [|n IH]; intros Hle.
  - cbn. split; [lra|]. split; [lra|]. intros m Hm. lia.
  - rewrite S_INR in Hle. pose proof (pos_INR n) as Hn0.
    destruct IH as (IHp & IHn & IHd); [nra|].
    pose proof (repeatCUSUM_avg n arm r) as Hav.
    set (a := repeatCUSUM n arm r) in *.
    destruct (updateCUSUM_quiet a r) as (Hd & _ & Hp' & Hn').
    { rewrite Hav, IHp. fold c. rewrite Rmax_right; nra. }
    { rewrite Hav. fold c. apply Rmax_lub; lra. }
    cbn [repeatCUSUM]. fold a. rewrite Hp', Hn', Hav, IHp. fold c.
    rewrite S_INR. split; [rewrite Rmax_right; nra|]. split.
    + split; [apply Rmax_l|apply Rmax_lub; lra].
    + intros m Hm. destruct (decide (m = n)) as [->|Hne]; [exact Hd|].
      apply IHd. lia.
Qed.

(** X7.  Feed [updateCUSUM] the same reward again and again against an
    unchanged average, the reward exceeding the average by more than the
    drift allowance 0.5, so that [c = reward - avgReward - 0.5 > 0].  While
    [cusumPositive + n * c] stays within the threshold 5, the first [n]
    steps detect nothing and leave [cusumPositive + n * c] in the positive
    accumulator; the step that would take it above 5 reports the change and
    returns both accumulators at 0. *)
Theorem X7_upward_drift_detection (arm : MABArm) (newReward : R) (n : nat) :
  let c := newReward - avgReward arm - 1 / 2 in
  0 < c ->
  0 <= cusumPositive arm ->
  0 <= cusumNegative arm <= 5 ->
  cusumPositive arm + INR n * c <= 5 ->
  cusumPositive (repeatCUSUM n arm newReward)
    = cusumPositive arm + INR n * c /\
  (forall m, (m < n)%nat ->
             changeDetected (repeatCUSUM m arm newReward) newReward = false) /\
  (5 < cusumPositive arm + INR (S n) * c ->
   changeDetected (repeatCUSUM n arm newReward) newReward = true /\
   cusumPositive (repeatCUSUM (S n) arm newReward) = 0 /\
   cusumNegative (repeatCUSUM (S n) arm newReward) = 0).
Proof.
  intros c Hc Hp Hn Hle.
  destruct (repeatCUSUM_up arm newReward n Hc Hp Hn Hle) as (Hpos & Hneg & Hd).
  fold c in Hpos. split; [exact Hpos|]. split; [exact Hd|].
  intros Hgt. rewrite S_INR in Hgt. pose proof (pos_INR n) as Hn0.
  pose proof (repeatCUSUM_avg n arm newReward) as Hav.
  assert (Hdet : changeDetected (repeatCUSUM n arm newReward) newReward
                 = true).
  { apply changeDetected_spec. left. rewrite Hav, Hpos. fold c.
    rewrite Rmax_right; nra. }
  split; [exact Hdet|].
  unfold changeDetected, updateCUSUM in Hdet; cbn [snd] in Hdet.
  cbn [repeatCUSUM]. unfold updateCUSUM; cbn. rewrite Hdet.
  split; reflexivity.
Qed.

Lemma X7_upward_drift_detection_witness :
  let arm := mkArm "cmp" "set" None 40 80 2 Infinity 21 21 0 0 0 in
  let c := 5 - avgReward arm - 1 / 2 in
  cusumPositive (repeatCUSUM 2 arm 5) = cusumPositive arm + INR 2 * c /\
  (forall m, (m < 2)%nat -> changeDetected (repeatCUSUM m arm 5) 5 = false) /\
  (5 < cusumPositive arm + INR 3 * c ->
   changeDetected (repeatCUSUM 2 arm 5) 5 = true /\
   cusumPositive (repeatCUSUM 3 arm 5) = 0 /\
   cusumNegative (repeatCUSUM 3 arm 5) = 0).
Proof.
  intros arm.
  apply (X7_upward_drift_detection arm 5 2); cbn; lra.
Defined.

Lemma repeatCUSUM_down arm r n :
  let d := avgReward arm - r in
  0 < d ->
  0 <= cusumPositive arm <= 5 ->
  0 <= cusumNegative arm ->
  cusumNegative arm + INR n * d <= 5 ->
  cusumNegative (repeatCUSUM n arm r) = cusumNegative arm + INR n * d /\
  0 <= cusumPositive (repeatCUSUM n arm r) <= 5 /\
  (forall m, (m < n)%nat -> changeDetected (repeatCUSUM m arm r) r = false).
Proof.
  intros d Hd Hp Hn. induction n as [|n IH]; intros Hle.
  - cbn. split; [lra|]. split; [lra|]. intros m Hm. lia.
  - rewrite S_INR in Hle. pose proof (pos_INR n) as Hn0.
    destruct IH as (IHn & IHp & IHd); [nra|].
    pose proof (repeatCUSUM_avg n arm r) as Hav.
    set (a := repeatCUSUM n arm r) in *.
    destruct (updateCUSUM_quiet a r) as (Hq & _ & Hp' & Hn').
    { rewrite Hav. apply Rmax_lub; unfold d in *; lra. }
    { rewrite Hav, IHn. rewrite Rmax_right; unfold d in *; nra. }
    cbn [repeatCUSUM]. fold a. rewrite Hp', Hn', Hav, IHn.
    rewrite S_INR. split; [rewrite Rmax_right; unfold d in *; nra|]. split.
    + split; [apply Rmax_l|apply Rmax_lub; unfold d in *; lra].
    + intros m Hm. destruct (decide (m = n)) as [->|Hne]; [exact Hq|].
      apply IHd. lia.
Qed.

(** X8.  Feed [updateCUSUM] the same reward again and again against an
    unchanged average, the reward lying below the average by [d > 0], however
    little.  The negative accumulator grows by the full [d] at each step,
    with no drift allowance: while [cusumNegative + n * d] stays within 5
    the first [n] steps detect nothing and leave that sum in the negative
    accumulator; the step that would take it above 5 reports the change and
    returns both accumulators at 0. *)
Theorem X8_downward_drift_detection (arm : MABArm) (newReward : R) (n : nat) :
  let d := avgReward arm - newReward in
  0 < d ->
  0 <= cusumPositive arm <= 5 ->
  0 <= cusumNegative arm ->
  cusumNegative arm + INR n * d <= 5 ->
  cusumNegative (repeatCUSUM n arm newReward)
    = cusumNegative arm + INR n * d /\
  (forall m, (m < n)%nat ->
             changeDetected (repeatCUSUM m arm newReward) newReward = false) /\
  (5 < cusumNegative arm + INR (S n) * d ->
   changeDetected (repeatCUSUM n arm newReward) newReward = true /\
   cusumPositive (repeatCUSUM (S n) arm newReward) = 0 /\
   cusumNegative (repeatCUSUM (S n) arm newReward) = 0).
Proof.
  intros d Hd Hp Hn Hle.
  destruct (repeatCUSUM_down arm newReward n Hd Hp Hn Hle)
    as (Hneg & Hpos & Hq).
  fold d in Hneg. split; [exact Hneg|]. split; [exact Hq|].
  intros Hgt. rewrite S_INR in Hgt. pose proof (pos_INR n) as Hn0.
  pose proof (repeatCUSUM_avg n arm newReward) as Hav.
  assert (Hdet : changeDetected (repeatCUSUM n arm newReward) newReward
                 = true).
  { apply changeDetected_spec. right. rewrite Hav, Hneg.
    rewrite Rmax_right; unfold d in *; nra. }
  split; [exact Hdet|].
  unfold changeDetected, updateCUSUM in Hdet; cbn [snd] in Hdet.
  cbn [repeatCUSUM]. unfold updateCUSUM; cbn. rewrite Hdet.
  split; reflexivity.
Qed.

Lemma X8_downward_drift_detection_witness :
  let arm := mkArm "cmp" "set" None 40 160 4 Infinity 21 21 0 0 0 in
  let d := avgReward arm - 1 / 2 in
  cusumNegative (repeatCUSUM 1 arm (1 / 2)) = cusumNegative arm + INR 1 * d /\
  (forall m, (m < 1)%nat ->
             changeDetected (repeatCUSUM m arm (1 / 2)) (1 / 2) = false) /\
  (5 < cusumNegative arm + INR 2 * d ->
   changeDetected (repeatCUSUM 1 arm (1 / 2)) (1 / 2) = true /\
   cusumPositive (repeatCUSUM 2 arm (1 / 2)) = 0 /\
   cusumNegative (repeatCUSUM 2 arm (1 / 2)) = 0).
Proof.
  intros arm.
  apply (X8_downward_drift_detection arm (1 / 2) 1); cbn; lra.
Defined.

(** ** Scores and budgets of a cycle *)

(** X9.  The decision a cycle emits for the arm at index [i] carries the
    arm's ids; for a cold arm ([pulls < 30]) it carries the Thompson sample
    with reason [THOMPSON_SAMPLING], for a warm arm the UCB1 value
    [avgReward + 2 * sqrt(ln totalPulls / pulls)] with reason [UCB1].  Its
    score is never [Infinity], so the stand-in 2 of the normalisation is
    never used, and its reason is never [CUSUM_RESET] or [MINIMUM_SPEND]. *)
Theorem X9_decision_of_arm
  (ts : nat -> MABArm -> R) (campaigns : list Campaign) (total : R)
  (now : Z) (redis : gmap string MABArm) (i : nat) (arm : MABArm) :
  loadArms redis now campaigns !! i = Some arm ->
  let totalPulls :=
    foldl (fun s a => s + pulls a) 0 (loadArms redis now campaigns) in
  exists d,
    runMABAllocation ts campaigns total now redis !! i = Some d /\
    dec_campaignId d = campaignId arm /\ dec_adSetId d = adSetId arm /\
    (pulls arm < 30 ->
     dec_reason d = THOMPSON_SAMPLING /\
     dec_ucbScore d = Finite (ts i arm)) /\
    (30 <= pulls arm ->
     dec_reason d = UCB1 /\
     dec_ucbScore d
       = Finite (avgReward arm + 2 * sqrt (ln totalPulls / pulls arm))) /\
    dec_ucbScore d <> Infinity /\
    dec_reason d <> CUSUM_RESET /\ dec_reason d <> MINIMUM_SPEND.
Proof.
  intros Hl totalPulls.
  eexists. split; [apply runMABAllocation_lookup, Hl|]. cbn.
  fold totalPulls.
  split; [reflexivity|]. split; [reflexivity|].
  destruct (Rlt_dec (pulls arm) 30) as [Hcold|Hwarm].
  - rewrite scoreArm_cold by exact Hcold. cbn.
    repeat split; try discriminate; intros; lra.
  - rewrite scoreArm_warm by lra. cbn.
    rewrite calculateUCB1_visited by lra.
    repeat split; try discriminate; intros; lra.
Qed.

Lemma X9_decision_of_arm_witness :
  let arm := newArm "cmp" "set" 0 in
  exists d,
    runMABAllocation (fun _ _ => 1 / 2) [mkCampaign "cmp" ["set"]]
                     2000000 0 ∅ !! 0%nat = Some d /\
    dec_campaignId d = campaignId arm /\ dec_adSetId d = adSetId arm /\
    (pulls arm < 30 ->
     dec_reason d = THOMPSON_SAMPLING /\ dec_ucbScore d = Finite (1 / 2)) /\
    (30 <= pulls arm ->
     dec_reason d = UCB1 /\
     dec_ucbScore d
       = Finite (avgReward arm
                 + 2 * sqrt (ln (foldl (fun s a => s + pulls a) 0
                                   (loadArms ∅ 0 [mkCampaign "cmp" ["set"]]))
                             / pulls arm))) /\
    dec_ucbScore d <> Infinity /\
    dec_reason d <> CUSUM_RESET /\ dec_reason d <> MINIMUM_SPEND.
Proof.
  intros arm.
  apply (X9_decision_of_arm (fun _ _ => 1 / 2) [mkCampaign "cmp" ["set"]]
           2000000 0 ∅ 0 arm).
  reflexivity.
Defined.

Lemma Math_round_integer x : exists z : Z, Math_round x = IZR z.
Proof. unfold Math_round. eauto. Qed.

Lemma Math_round_near x : x - 1 / 2 < Math_round x <= x + 1 / 2.
Proof.
  unfold Math_round. pose proof (Zfloor_bound (x + 1 / 2)). lra.
Qed.

Lemma Math_round_le x y : x <= y -> Math_round x <= Math_round y.
Proof.
  intros H. unfold Math_round. apply IZR_le, Zfloor_le. lra.
Qed.

Lemma MIN_BUDGET_PAISA_value : MIN_BUDGET_PAISA = IZR 1000000.
Proof. unfold MIN_BUDGET_PAISA. lra. Qed.

Lemma allocated_floor_integer total ts score :
  let allocated := Rmax (rawBudget total ts score) MIN_BUDGET_PAISA in
  MIN_BUDGET_PAISA <= allocated /\ exists z : Z, allocated = IZR z.
Proof.
  cbv zeta. split; [apply Rmax_r|].
  unfold Rmax. destruct (Rle_dec _ _).
  - exists 1000000%Z. apply MIN_BUDGET_PAISA_value.
  - apply Math_round_integer.
Qed.

Lemma decisions_floor total scored :
  Forall (fun d => MIN_BUDGET_PAISA <= allocatedBudgetPaisa d /\
                   exists z : Z, allocatedBudgetPaisa d = IZR z)
         (decisions total scored).
Proof.
  unfold decisions. apply Forall_fmap, Forall_forall. intros sa _. cbn.
  apply allocated_floor_integer.
Qed.

Lemma totalAllocated_lower ds :
  Forall (fun d => MIN_BUDGET_PAISA <= allocatedBudgetPaisa d) ds ->
  INR (length ds) * MIN_BUDGET_PAISA <= totalAllocated ds.
Proof.
  induction 1 as [|d ds Hd _ IH].
  - cbn. lra.
  - change (totalAllocated (d :: ds))
      with (allocatedBudgetPaisa d + totalAllocated ds).
    change (length (d :: ds)) with (S (length ds)). rewrite S_INR. lra.
Qed.

(** X10.  Every budget a cycle allocates is a whole number of paisa and at
    least [MIN_BUDGET_PAISA]; the allocated budgets therefore sum to at
    least [MIN_BUDGET_PAISA] times the number of arms, and the cycle
    allocates more than the total budget whenever that budget is below
    [MIN_BUDGET_PAISA] times the number of arms. *)
Theorem X10_floor_and_overrun
  (ts : nat -> MABArm -> R) (campaigns : list Campaign) (total : R)
  (now : Z) (redis : gmap string MABArm) :
  let ds := runMABAllocation ts campaigns total now redis in
  Forall (fun d => MIN_BUDGET_PAISA <= allocatedBudgetPaisa d /\
                   exists z : Z, allocatedBudgetPaisa d = IZR z) ds /\
  INR (length ds) * MIN_BUDGET_PAISA <= totalAllocated ds /\
  (total < INR (length ds) * MIN_BUDGET_PAISA -> total < totalAllocated ds).
Proof.
  intros ds. subst ds. rewrite runMABAllocation_decisions.
  pose proof (decisions_floor total
                (scoredArms ts
                   (foldl (fun s a => s + pulls a) 0
                      (loadArms redis now campaigns))
                   (loadArms redis now campaigns))) as Hall.
  assert (Hlow := totalAllocated_lower _
                    (Forall_impl _ _ _ Hall (fun d H => proj1 H))).
  split; [exact Hall|]. split; [exact Hlow|]. intros; lra.
Qed.

(** X11.  Within one cycle with a non-negative budget and a positive total
    score, an arm whose normalised score is at most that of another arm is
    allocated at most as much as that arm. *)
Theorem X11_allocation_monotone
  (total : R) (scored : list ScoredArm) (i j : nat)
  (d1 d2 : AllocationDecision) :
  0 <= total ->
  0 < totalScore scored ->
  decisions total scored !! i = Some d1 ->
  decisions total scored !! j = Some d2 ->
  normalizedScore (dec_ucbScore d1) <= normalizedScore (dec_ucbScore d2) ->
  allocatedBudgetPaisa d1 <= allocatedBudgetPaisa d2.
Proof.
  intros Ht Hs H1 H2.
  unfold decisions in H1, H2. rewrite list_lookup_fmap in H1, H2.
  destruct (scored !! i) as [sa1|]; [|discriminate].
  destruct (scored !! j) as [sa2|]; [|discriminate].
  cbn in H1, H2. injection H1 as <-. injection H2 as <-. cbn.
  intros Hle. apply Rle_max_compat_r. unfold rawBudget.
  apply Math_round_le. apply Rmult_le_compat_l; [exact Ht|].
  unfold Rdiv. apply Rmult_le_compat_r; [|exact Hle].
  left. now apply Rinv_0_lt_compat.
Qed.

Lemma X11_allocation_monotone_witness :
  let arm := newArm "cmp" "set" 0 in
  let scored := [mkScored arm (Finite (3 / 2)) UCB1;
                 mkScored arm (Finite (7 / 2)) UCB1] in
  allocatedBudgetPaisa
    (mkDecision "cmp" "set"
       (Rmax (rawBudget 5000000 (totalScore scored) (Finite (3 / 2)))
             MIN_BUDGET_PAISA) (Finite (3 / 2)) UCB1)
  <= allocatedBudgetPaisa
       (mkDecision "cmp" "set"
          (Rmax (rawBudget 5000000 (totalScore scored) (Finite (7 / 2)))
                MIN_BUDGET_PAISA) (Finite (7 / 2)) UCB1).
Proof.
  intros arm scored.
  apply (X11_allocation_monotone 5000000 scored 0 1).
  - lra.
  - cbn. lra.
  - reflexivity.
  - reflexivity.
  - cbn. lra.
Defined.

Lemma foldl_Rplus {A} (f : A -> R) (l : list A) (acc : R) :
  foldl (fun s a => s + f a) acc l = acc + sumR (map f l).
Proof.
  revert acc. induction l as [|x l IH]; intros acc; cbn; [lra|].
  rewrite IH. lra.
Qed.

Lemma totalScore_sum scored :
  totalScore scored
  = sumR (map (fun sa => normalizedScore (sc_score sa)) scored).
Proof. unfold totalScore. rewrite foldl_Rplus. lra. Qed.

Lemma Rabs_le_between a b : Rabs a <= b -> - b <= a <= b.
Proof. unfold Rabs. destruct (Rcase_abs a); intros; lra. Qed.

(** With the floor inactive, the allocated budgets of the arms of [l] stay
    within half a paisa per arm of their exact shares. *)
Lemma allocated_near_shares total ts (l : list ScoredArm) :
  Forall (fun sa => MIN_BUDGET_PAISA <= rawBudget total ts (sc_score sa)) l ->
  Rabs (totalAllocated
          (map (fun sa =>
                  mkDecision (campaignId (sc_arm sa)) (adSetId (sc_arm sa))
                    (Rmax (rawBudget total ts (sc_score sa)) MIN_BUDGET_PAISA)
                    (sc_score sa) (sc_reason sa)) l)
        - total * (sumR (map (fun sa => normalizedScore (sc_score sa)) l)
                   / ts))
  <= INR (length l) / 2.
Proof.
  induction 1 as [|sa l Hsa _ IH].
  - cbn. rewrite Rabs_right; lra.
  - change (length (sa :: l)) with (S (length l)). rewrite S_INR.
    cbn [map sumR]. unfold totalAllocated in *. cbn [foldr].
    cbn [allocatedBudgetPaisa].
    rewrite Rmax_left by exact Hsa.
    pose proof (Math_round_near
                  (total * (normalizedScore (sc_score sa) / ts))) as Hr.
    fold (rawBudget total ts (sc_score sa)) in Hr.
    apply Rabs_le. apply Rabs_le_between in IH.
    unfold Rdiv in *. split; nra.
Qed.

(** X12.  When the total score is not zero and no arm's proportional share
    falls below the floor, the budgets a cycle allocates sum to the total
    budget up to rounding: the difference is at most half a paisa per
    arm. *)
Theorem X12_budget_conserved_without_floor
  (total : R) (scored : list ScoredArm) :
  totalScore scored <> 0 ->
  Forall (fun sa =>
            MIN_BUDGET_PAISA
            <= rawBudget total (totalScore scored) (sc_score sa)) scored ->
  Rabs (totalAllocated (decisions total scored) - total)
  <= INR (length scored) / 2.
Proof.
  intros Hne Hfloor.
  pose proof (allocated_near_shares total (totalScore scored) scored Hfloor)
    as H.
  rewrite <- totalScore_sum in H.
  replace (total * (totalScore scored / totalScore scored)) with total in H
    by (field; exact Hne).
  exact H.
Qed.

Lemma X12_budget_conserved_without_floor_witness :
  let arm := newArm "cmp" "set" 0 in
  let scored := [mkScored arm (Finite (7 / 2)) UCB1;
                 mkScored arm (Finite (3 / 2)) UCB1] in
  Rabs (totalAllocated (decisions 10000000 scored) - 10000000)
  <= INR (length scored) / 2.
Proof.
  intros arm scored.
  apply (X12_budget_conserved_without_floor 10000000 scored).
  - cbn. lra.
  - subst scored. unfold totalScore, MIN_BUDGET_PAISA, rawBudget.
    cbn [foldl sc_score normalizedScore].
    constructor; [|constructor; [|constructor]].
    + cbn [sc_score normalizedScore].
      rewrite (Math_round_IZR 7000000); lra.
    + cbn [sc_score normalizedScore].
      rewrite (Math_round_IZR 3000000); lra.
Defined.

(** ** Thompson sampling *)

Lemma Rleb_true a b : Rleb a b = true <-> a <= b.
Proof. unfold Rleb. destruct (Rle_dec a b); split; intros; try easy. Qed.

Lemma Rleb_false a b : Rleb a b = false <-> b < a.
Proof.
  unfold Rleb. destruct (Rle_dec a b); split; intros; try easy; lra.
Qed.

Lemma gammaLoop_positive fuel d c rng pos g pos' :
  0 < d ->
  gammaLoop fuel d c rng pos = Some (g, pos') ->
  0 < g /\ (pos <= pos')%nat.
Proof.
  intros Hd. revert pos. induction fuel as [|fuel IH]; intros pos H.
  - discriminate.
  - cbn [gammaLoop] in H. cbv zeta in H.
    destruct (Rleb _ 0) eqn:Ev.
    + apply IH in H as [? ?]. split; [assumption|lia].
    + apply Rleb_false in Ev.
      destruct (Rltb (rng _) _).
      { injection H as <- <-. split; [nra|lia]. }
      destruct (Rltb (ln _) _).
      { injection H as <- <-. split; [nra|lia]. }
      apply IH in H as [? ?]. split; [assumption|lia].
Qed.

Lemma gammaSample_positive fuel k rng pos g pos' :
  0 < k ->
  gammaSample fuel k rng pos = Some (g, pos') ->
  0 < g /\ (pos <= pos')%nat.
Proof.
  revert k pos g pos'. induction fuel as [|fuel IH]; intros k pos g pos' Hk H.
  - discriminate.
  - cbn [gammaSample] in H. destruct (Rltb k 1) eqn:Ek.
    + destruct (gammaSample fuel (k + 1) rng pos) as [[g1 pos1]|] eqn:E;
        [|discriminate].
      injection H as <- <-.
      apply IH in E as [Hg Hp]; [|lra].
      split; [|lia].
      apply Rmult_lt_0_compat; [exact Hg|]. unfold Rpower. apply exp_pos.
    + apply Rltb_false in Ek. cbv zeta in H.
      apply gammaLoop_positive in H; [exact H|lra].
Qed.

(** X13.  For an arm with positive [alpha] and [beta], every value
    [thompsonSample] returns lies strictly between 0 and 1, and the sampler
    only moves forward in the sequence of [Math.random] calls. *)
Theorem X13_thompson_sample_in_unit_interval
  (fuel : nat) (arm : MABArm) (rng : nat -> R) (pos : nat)
  (sample : R) (pos' : nat) :
  (forall n, 0 < rng n < 1) ->
  0 < alpha arm ->
  0 < beta arm ->
  thompsonSample fuel arm rng pos = Some (sample, pos') ->
  0 < sample < 1 /\ (pos <= pos')%nat.
Proof.
  intros _ Ha Hb H. unfold thompsonSample in H.
  destruct (gammaSample fuel (alpha arm) rng pos) as [[g1 pos1]|] eqn:E1;
    [|discriminate].
  destruct (gammaSample fuel (beta arm) rng pos1) as [[g2 pos2]|] eqn:E2;
    [|discriminate].
  injection H as <- <-.
  apply gammaSample_positive in E1 as [Hg1 Hp1]; [|exact Ha].
  apply gammaSample_positive in E2 as [Hg2 Hp2]; [|exact Hb].
  split; [|lia].
  assert (0 < g1 + g2) as Hs by lra.
  split.
  - apply Rdiv_lt_0_compat; assumption.
  - apply (Rmult_lt_reg_r (g1 + g2)); [exact Hs|].
    unfold Rdiv. rewrite Rmult_assoc, Rinv_l by lra. lra.
Qed.

Lemma gaussianRandom_quarter pos :
  gaussianRandom (fun _ => 1 / 4) pos = 0.
Proof.
  unfold gaussianRandom.
  replace (2 * PI * (1 / 4)) with (PI / 2) by lra.
  rewrite cos_PI2. lra.
Qed.

Lemma gammaSample_quarter k pos :
  1 <= k ->
  gammaSample 2 k (fun _ => 1 / 4) pos
  = Some (k - 1 / 3, S (S (S pos))).
Proof.
  intros Hk. cbn [gammaSample gammaLoop]. cbv zeta.
  rewrite (proj2 (Rltb_false k 1)) by lra.
  rewrite gaussianRandom_quarter.
  rewrite (proj2 (Rleb_false _ 0)) by (rewrite Rmult_0_r, Rplus_0_r; lra).
  rewrite (proj2 (Rltb_true (1 / 4) _)) by lra.
  do 2 f_equal. ring.
Qed.

Lemma X13_thompson_sample_in_unit_interval_witness :
  0 < (1 - 1 / 3) / ((1 - 1 / 3) + (1 - 1 / 3)) < 1 /\ (0 <= 6)%nat.
Proof.
  apply (X13_thompson_sample_in_unit_interval 2 (newArm "cmp" "set" 0)
           (fun _ => 1 / 4) 0).
  - intros n. lra.
  - cbn. lra.
  - cbn. lra.
  - unfold thompsonSample. cbn [alpha beta newArm].
    rewrite !gammaSample_quarter by lra. reflexivity.
Defined.

(** ** Positive scores *)

Lemma loadArms_Forall (I : MABArm -> Prop) redis now campaigns :
  (forall cId aId, I (loadArm redis cId aId now)) ->
  Forall I (loadArms redis now campaigns).
Proof.
  intros H. unfold loadArms.
  induction campaigns as [|c cs IH]; [constructor|].
  cbn [flat_map]. apply Forall_app_2; [|exact IH].
  generalize (adSets c). intros l.
  induction l as [|adSet l IHl]; [constructor|].
  cbn [map]. constructor; [apply H|exact IHl].
Qed.

Lemma sumR_nonneg_member (f : MABArm -> R) (l : list MABArm) x :
  Forall (fun a => 0 <= f a) l -> x ∈ l -> f x <= sumR (map f l).
Proof.
  induction 1 as [|a l Ha Hl IH]; intros Hin.
  - inversion Hin.
  - assert (0 <= sumR (map f l)) as Hs.
    { clear -Hl. induction Hl as [|b l Hb _ IH]; cbn; lra. }
    cbn. apply elem_of_cons in Hin as [->|Hin]; [lra|].
    specialize (IH Hin). lra.
Qed.

Lemma sumR_positive {A} (f : A -> R) (l : list A) :
  l <> [] -> Forall (fun a => 0 < f a) l -> 0 < sumR (map f l).
Proof.
  intros Hne Hall. destruct Hall as [|a l Ha Hl]; [contradiction|].
  assert (0 <= sumR (map f l)) as Hs.
  { clear -Hl. induction Hl as [|b l Hb _ IH]; cbn; lra. }
  cbn. lra.
Qed.

Lemma sumR_member_le {A} (f : A -> R) (l : list A) x :
  Forall (fun a => 0 < f a) l -> x ∈ l -> f x <= sumR (map f l).
Proof.
  induction 1 as [|a l Ha Hl IH]; intros Hin.
  - inversion Hin.
  - assert (0 <= sumR (map f l)) as Hs.
    { clear -Hl. induction Hl as [|b l Hb _ IH]; cbn; lra. }
    cbn. apply elem_of_cons in Hin as [->|Hin]; [lra|].
    specialize (IH Hin). lra.
Qed.

Lemma scoreArm_positive sample totalPulls arm :
  0 < sample ->
  0 <= avgReward arm ->
  pulls arm <= totalPulls ->
  0 < normalizedScore (sc_score (scoreArm sample totalPulls arm)).
Proof.
  intros Hs Ha Ht.
  destruct (Rlt_dec (pulls arm) 30) as [Hcold|Hwarm].
  - rewrite scoreArm_cold by exact Hcold. exact Hs.
  - rewrite scoreArm_warm by lra. cbn.
    rewrite calculateUCB1_visited by lra. cbn.
    assert (0 < sqrt (ln totalPulls / pulls arm)); [|lra].
    apply sqrt_lt_R0. apply Rdiv_lt_0_compat; [apply ln_pos|]; lra.
Qed.

(** X14.  Take a store reached by reward updates with non-negative rewards
    and a cycle with at least one arm whose Thompson samples are positive.
    Then every score of the cycle is positive after normalisation, the
    total score is positive, and every arm's proportion of the budget lies
    in (0, 1]: the division by the total score is never a division by
    zero. *)
Theorem X14_total_score_positive
  (ts : nat -> MABArm -> R) (campaigns : list Campaign) (now : Z)
  (redis : gmap string MABArm) :
  reachable (fun r => 0 <= r) redis ->
  (forall i arm, 0 < ts i arm) ->
  loadArms redis now campaigns <> [] ->
  let arms := loadArms redis now campaigns in
  let scored := scoredArms ts (foldl (fun s a => s + pulls a) 0 arms) arms in
  0 < totalScore scored /\
  Forall (fun sa =>
            0 < normalizedScore (sc_score sa) /\
            0 < normalizedScore (sc_score sa) / totalScore scored <= 1)
         scored.
Proof.
  intros Hreach Hts Hne arms scored.
  assert (Harms : Forall (fun a => 0 <= pulls a /\ 0 <= avgReward a) arms).
  { apply loadArms_Forall. intros c a.
    destruct (countersOk_reachable (fun r => 0 <= r) redis c a now
                (fun r H => H) Hreach) as [Htot Hcases].
    destruct Hcases as [(-> & _ & ->)|(Hp & -> & _)]; [lra|].
    split; [lra|]. apply Rle_mult_inv_pos; lra. }
  assert (Hpos : Forall (fun sa => 0 < normalizedScore (sc_score sa)) scored).
  { apply Forall_lookup. intros i sa Hi. subst scored.
    unfold scoredArms in Hi. rewrite list_lookup_imap in Hi.
    destruct (arms !! i) as [arm|] eqn:Ei; [|discriminate].
    cbn in Hi. injection Hi as <-.
    assert (arm ∈ arms) as Hin by (eapply list_elem_of_lookup_2, Ei).
    pose proof (proj1 (Forall_forall _ _) Harms arm Hin) as [Hp Ha].
    apply scoreArm_positive; [apply Hts|exact Ha|].
    rewrite foldl_Rplus, Rplus_0_l.
    apply (sumR_nonneg_member pulls arms arm); [|exact Hin].
    eapply Forall_impl; [exact Harms|]. intros a [H _]. exact H. }
  assert (Hlen : scored <> []).
  { subst scored. unfold scoredArms. intros H.
    apply (f_equal length) in H. rewrite length_imap in H.
    apply Hne. now apply nil_length_inv. }
  assert (Htot : 0 < totalScore scored).
  { rewrite totalScore_sum. now apply sumR_positive. }
  split; [exact Htot|].
  apply Forall_forall. intros sa Hin.
  pose proof (proj1 (Forall_forall _ _) Hpos sa Hin) as Hsa.
  split; [exact Hsa|]. split.
  - now apply Rdiv_lt_0_compat.
  - apply (Rmult_le_reg_r (totalScore scored)); [exact Htot|].
    unfold Rdiv. rewrite Rmult_assoc, Rinv_l, Rmult_1_r, Rmult_1_l by lra.
    rewrite totalScore_sum.
    apply (sumR_member_le (fun sa => normalizedScore (sc_score sa)));
      assumption.
Qed.

Lemma X14_total_score_positive_witness :
  let redis := (updateArmReward "cmp" "set" 3 0 ∅).1 in
  let campaigns := [mkCampaign "cmp" ["set"]] in
  let ts := fun (_ : nat) (_ : MABArm) => 1 / 2 in
  let arms := loadArms redis 0 campaigns in
  let scored := scoredArms ts (foldl (fun s a => s + pulls a) 0 arms) arms in
  0 < totalScore scored /\
  Forall (fun sa =>
            0 < normalizedScore (sc_score sa) /\
            0 < normalizedScore (sc_score sa) / totalScore scored <= 1)
         scored.
Proof.
  intros redis campaigns ts.
  apply (X14_total_score_positive ts campaigns 0 redis).
  - apply reachable_first_update. lra.
  - intros i arm. unfold ts. lra.
  - discriminate.
Defined.

(** ** Persisting a cycle *)

Lemma sameLearned_refl a : sameLearned a a.
Proof. unfold sameLearned. repeat split; reflexivity. Qed.

Lemma sameLearned_trans a b c :
  sameLearned a b -> sameLearned b c -> sameLearned a c.
Proof. unfold sameLearned. intros H1 H2. repeat split; lra. Qed.

Lemma sameLearned_sym a b : sameLearned a b -> sameLearned b a.
Proof. unfold sameLearned. intros H. repeat split; lra. Qed.

Lemma persistDecisions_learned redis0 today ds :
  forall arms redis table,
    Forall (fun x =>
              sameLearned x
                (learnedBefore redis0
                   (mabArmKey (campaignId x) (adSetId x) "combined"))) arms ->
    (forall key x, redis !! key = Some x ->
                   sameLearned x (learnedBefore redis0 key)) ->
    (forall key, redis !! key = None -> redis0 !! key = None) ->
    let redis' := (persistDecisions today ds arms redis table).1 in
    (forall key x, redis' !! key = Some x ->
                   sameLearned x (learnedBefore redis0 key)) /\
    (forall key, redis' !! key = None -> redis0 !! key = None).
Proof.
  induction ds as [|d ds IH]; intros arms redis table Harms Hsome Hnone.
  - cbn. split; assumption.
  - cbn [persistDecisions].
    destruct (list_find _ arms) as [[i arm]|] eqn:Ef.
    + apply list_find_Some in Ef as (Hi & _ & _).
      assert (Harm : sameLearned arm
                       (learnedBefore redis0
                          (mabArmKey (campaignId arm) (adSetId arm)
                                     "combined"))).
      { eapply (proj1 (Forall_lookup _ _) Harms). exact Hi. }
      apply IH.
      * apply Forall_insert; [exact Harms|]. exact Harm.
      * intros key x. unfold saveArm. rewrite lookup_insert.
        case_decide as Hk; [|apply Hsome].
        intros [= <-]. cbn in Hk. subst key. exact Harm.
      * intros key. unfold saveArm. rewrite lookup_insert.
        case_decide; [discriminate|apply Hnone].
    + now apply IH.
Qed.

(** X15.  A cycle does not change what the engine has learned: in a store
    where every arm sits under its own key, the arm loaded for any pair of
    ids after the cycle's writes has the same [pulls], [totalReward],
    [avgReward], [alpha], [beta] and CUSUM accumulators as the arm loaded
    for that pair before the cycle. *)
Theorem X15_cycle_keeps_statistics
  (ts : nat -> MABArm -> R) (campaigns : list Campaign) (total : R)
  (now today : Z) (redis : gmap string MABArm)
  (table : gmap (string * Z) BudgetAllocationRow)
  (cId aId : string) (now' : Z) :
  wellKeyed redis ->
  let redis' :=
    (runMABAllocationWrites ts campaigns total now today redis table).1 in
  sameLearned (loadArm redis' cId aId now') (loadArm redis cId aId now').
Proof.
  intros Hwk redis'.
  destruct (persistDecisions_learned redis today
              (runMABAllocation ts campaigns total now redis)
              (loadArms redis now campaigns) redis table)
    as [Hsome Hnone].
  - apply loadArms_Forall. intros c a. unfold loadArm, learnedBefore.
    destruct (redis !! mabArmKey c a "combined") as [y|] eqn:E.
    + rewrite <- (Hwk _ _ E), E. apply sameLearned_refl.
    + cbn [campaignId adSetId newArm]. rewrite E.
      unfold sameLearned. cbn. repeat split; reflexivity.
  - intros key x Hx. unfold learnedBefore. rewrite Hx.
    apply sameLearned_refl.
  - trivial.
  - fold (runMABAllocationWrites ts campaigns total now today redis table)
      in Hsome, Hnone.
    fold redis' in Hsome, Hnone.
    unfold loadArm.
    destruct (redis' !! mabArmKey cId aId "combined") as [x|] eqn:E.
    + apply Hsome in E. unfold learnedBefore in E.
      destruct (redis !! mabArmKey cId aId "combined"); [exact E|].
      eapply sameLearned_trans; [exact E|].
      unfold sameLearned. cbn. repeat split; reflexivity.
    + apply Hnone in E. rewrite E. apply sameLearned_refl.
Qed.

Lemma X15_cycle_keeps_statistics_witness :
  let redis := (updateArmReward "cmp" "set" 3 0 ∅).1 in
  let redis' :=
    (runMABAllocationWrites (fun _ _ => 1 / 2)
       [mkCampaign "cmp" ["set"; "other"]] 5000000 7 1 redis ∅).1 in
  sameLearned (loadArm redis' "cmp" "set" 9) (loadArm redis "cmp" "set" 9).
Proof.
  intros redis.
  apply (X15_cycle_keeps_statistics (fun _ _ => 1 / 2)
           [mkCampaign "cmp" ["set"; "other"]] 5000000 7 1 redis ∅
           "cmp" "set" 9).
  apply (reachable_wellKeyed (fun _ => True)).
  apply reachable_first_update. exact I.
Defined.

Lemma hasIds_insert arms i arm score cId aId :
  arms !! i = Some arm ->
  hasIds arms cId aId ->
  hasIds (<[i := withUcbScore arm score]> arms) cId aId.
Proof.
  intros Hi (x & Hx & Hc & Ha).
  apply list_elem_of_lookup in Hx as [j Hj].
  destruct (decide (i = j)) as [->|Hne].
  - exists (withUcbScore arm score).
    assert (x = arm) as -> by congruence.
    split; [|split; assumption].
    apply list_elem_of_lookup. exists j.
    apply list_lookup_insert_eq. eapply lookup_lt_Some, Hi.
  - exists x. split; [|split; assumption].
    apply list_elem_of_lookup. exists j.
    now rewrite list_lookup_insert_ne.
Qed.

Lemma hasIds_find arms cId aId :
  hasIds arms cId aId ->
  exists i arm,
    list_find (fun a => campaignId a = cId /\ adSetId a = aId) arms
      = Some (i, arm) /\
    arms !! i = Some arm /\ campaignId arm = cId /\ adSetId arm = aId.
Proof.
  intros (x & Hx & Hc & Ha).
  destruct (list_find_elem_of
              (fun a => campaignId a = cId /\ adSetId a = aId) arms x Hx
              (conj Hc Ha)) as [[i arm] Hf].
  exists i, arm. split; [exact Hf|].
  apply list_find_Some in Hf as (Hi & [Hc' Ha'] & _). auto.
Qed.

Lemma persistDecisions_table today ds :
  forall arms redis table,
    Forall (fun d => hasIds arms (dec_campaignId d) (dec_adSetId d)) ds ->
    forall cId date,
      (persistDecisions today ds arms redis table).2 !! (cId, date)
      = if decide (date = today)
        then match lastDecisionFor cId ds with
             | Some d => Some (allocationRow d)
             | None => table !! (cId, date)
             end
        else table !! (cId, date).
Proof.
  induction ds as [|d ds IH]; intros arms redis table Hall cId date.
  - cbn. now case_decide.
  - apply Forall_cons in Hall as [Hd Hrest].
    destruct (hasIds_find _ _ _ Hd) as (i & arm & Hf & Hi & _).
    cbn [persistDecisions lastDecisionFor]. rewrite Hf.
    rewrite IH.
    + case_decide as Hdate; [|rewrite lookup_insert_ne; [reflexivity|]].
      * destruct (lastDecisionFor cId ds); [reflexivity|].
        rewrite lookup_insert. subst date.
        case_decide as Hk; case_decide as Hc; try reflexivity; congruence.
      * intros [= _ Hk]. congruence.
    + eapply Forall_impl; [exact Hrest|]. intros d' Hd'.
      now apply hasIds_insert.
Qed.

Lemma cycle_decisions_ids ts campaigns total now redis :
  Forall (fun d =>
            hasIds (loadArms redis now campaigns)
                   (dec_campaignId d) (dec_adSetId d)
            /\ exists s, dec_ucbScore d = Finite s)
         (runMABAllocation ts campaigns total now redis).
Proof.
  apply Forall_lookup. intros i d Hd.
  rewrite runMABAllocation_decisions in Hd. unfold decisions in Hd.
  rewrite list_lookup_fmap in Hd. unfold scoredArms in Hd.
  rewrite list_lookup_imap in Hd.
  destruct (loadArms redis now campaigns !! i) as [arm|] eqn:Ei;
    [|discriminate].
  cbn [fmap option_fmap option_map] in Hd. injection Hd as <-.
  cbn [dec_campaignId dec_adSetId dec_ucbScore].
  rewrite scoreArm_arm. split.
  - exists arm. split; [|split; reflexivity].
    eapply list_elem_of_lookup_2, Ei.
  - unfold scoreArm. destruct (Rltb _ _) eqn:E; cbn; [eauto|].
    apply Rltb_false in E. unfold COLD_START_THRESHOLD in E.
    rewrite calculateUCB1_visited by lra. eauto.
Qed.

(** X16.  After a cycle the [budgetAllocation] row of a campaign for the
    day of the run holds the allocation, score and reason of the last
    decision the cycle emitted for that campaign: for a campaign with
    several ad sets this is the budget of its last ad set alone.  Rows of
    campaigns without a decision and rows of other days are untouched. *)
Theorem X16_row_of_last_decision
  (ts : nat -> MABArm -> R) (campaigns : list Campaign) (total : R)
  (now today : Z) (redis : gmap string MABArm)
  (table : gmap (string * Z) BudgetAllocationRow) (cId : string) (date : Z) :
  let ds := runMABAllocation ts campaigns total now redis in
  let table' :=
    (runMABAllocationWrites ts campaigns total now today redis table).2 in
  table' !! (cId, date)
  = if decide (date = today)
    then match lastDecisionFor cId ds with
         | Some d => Some (allocationRow d)
         | None => table !! (cId, date)
         end
    else table !! (cId, date).
Proof.
  intros ds table'. subst table'. unfold runMABAllocationWrites.
  apply persistDecisions_table.
  eapply Forall_impl; [apply cycle_decisions_ids|].
  intros d [H _]. exact H.
Qed.

Lemma persistDecisions_keeps_present today ds key :
  forall arms redis table,
    Forall (fun d => exists s, dec_ucbScore d = Finite s) ds ->
    (exists x s, redis !! key = Some x /\ ucbScore x = Finite s) ->
    exists x s,
      (persistDecisions today ds arms redis table).1 !! key = Some x /\
      ucbScore x = Finite s.
Proof.
  induction ds as [|d ds IH]; intros arms redis table Hfin Hpre.
  - exact Hpre.
  - apply Forall_cons in Hfin as [[s Hs] Hfin].
    cbn [persistDecisions].
    destruct (list_find _ arms) as [[i arm]|]; [|now apply IH].
    apply IH; [exact Hfin|].
    unfold saveArm. rewrite lookup_insert. case_decide.
    + exists (withUcbScore arm (dec_ucbScore d)), s. split; [reflexivity|].
      exact Hs.
    + exact Hpre.
Qed.

Lemma persistDecisions_materialises today ds :
  forall arms redis table,
    Forall (fun d =>
              hasIds arms (dec_campaignId d) (dec_adSetId d)
              /\ exists s, dec_ucbScore d = Finite s) ds ->
    forall d, d ∈ ds ->
      exists x s,
        (persistDecisions today ds arms redis table).1
          !! mabArmKey (dec_campaignId d) (dec_adSetId d) "combined"
          = Some x /\
        ucbScore x = Finite s.
Proof.
  induction ds as [|d0 ds IH]; intros arms redis table Hall d Hin.
  - inversion Hin.
  - apply Forall_cons in Hall as [[Hd0 [s0 Hs0]] Hrest].
    destruct (hasIds_find _ _ _ Hd0) as (i & arm & Hf & Hi & Hc & Ha).
    cbn [persistDecisions]. rewrite Hf.
    assert (Hrest' : Forall (fun d =>
                hasIds (<[i := withUcbScore arm (dec_ucbScore d0)]> arms)
                       (dec_campaignId d) (dec_adSetId d)
                /\ exists s, dec_ucbScore d = Finite s) ds).
    { eapply Forall_impl; [exact Hrest|]. intros d' [H1 H2].
      split; [now apply hasIds_insert|exact H2]. }
    apply elem_of_cons in Hin as [->|Hin].
    + apply persistDecisions_keeps_present.
      * eapply Forall_impl; [exact Hrest|]. intros d' [_ H]. exact H.
      * exists (withUcbScore arm (dec_ucbScore d0)), s0.
        split; [|exact Hs0].
        rewrite <- Hc, <- Ha.
        apply (saved_arm_lookup redis (withUcbScore arm (dec_ucbScore d0))).
    + now apply IH.
Qed.

(** X17.  A cycle stores a record for every arm it scores, observed or
    not: after its writes the key of each arm of the cycle is present in
    the store, and the stored record carries a finite [ucbScore]. *)
Theorem X17_cycle_materialises_arms
  (ts : nat -> MABArm -> R) (campaigns : list Campaign) (total : R)
  (now today : Z) (redis : gmap string MABArm)
  (table : gmap (string * Z) BudgetAllocationRow) (i : nat) (arm : MABArm) :
  loadArms redis now campaigns !! i = Some arm ->
  let redis' :=
    (runMABAllocationWrites ts campaigns total now today redis table).1 in
  exists x s,
    redis' !! mabArmKey (campaignId arm) (adSetId arm) "combined" = Some x /\
    ucbScore x = Finite s.
Proof.
  intros Hi redis'.
  pose proof (runMABAllocation_lookup ts campaigns total now redis i arm Hi)
    as Hd. cbv zeta in Hd.
  apply list_elem_of_lookup_2 in Hd.
  destruct (persistDecisions_materialises today
              (runMABAllocation ts campaigns total now redis)
              (loadArms redis now campaigns) redis table
              (cycle_decisions_ids ts campaigns total now redis) _ Hd)
    as (x & s & Hx & Hs).
  exists x, s. split; [exact Hx|exact Hs].
Qed.

Lemma X17_cycle_materialises_arms_witness :
  let arm := newArm "cmp" "set" 7 in
  exists x s,
    (runMABAllocationWrites (fun _ _ => 1 / 2) [mkCampaign "cmp" ["set"]]
       5000000 7 1 ∅ ∅).1
      !! mabArmKey (campaignId arm) (adSetId arm) "combined" = Some x /\
    ucbScore x = Finite s.
Proof.
  intros arm.
  apply (X17_cycle_materialises_arms (fun _ _ => 1 / 2)
           [mkCampaign "cmp" ["set"]] 5000000 7 1 ∅ ∅ 0 arm).
  reflexivity.
Defined.

(** ** Applying a cycle to the platforms *)

Lemma truthy_Some o s : truthy o = Some s -> o = Some s /\ s <> "".
Proof.
  unfold truthy. destruct o as [t|]; [|discriminate].
  case_decide; [discriminate|]. intros [= ->]. auto.
Qed.

Lemma applyDecision_calls gc mc db dbT apiT d e :
  e ∈ applyDecision gc mc db dbT apiT d ->
  match e with
  | GoogleBudgetUpdate creds name micros =>
      gc = Some creds /\
      exists campaign ext,
        db !! dec_campaignId d = Some campaign /\
        platform campaign = GOOGLE /\
        externalId campaign = Some ext /\ ext <> "" /\
        budgetResourceName campaign = Some name /\ name <> "" /\
        micros = allocatedBudgetPaisa d * 10000
  | MetaBudgetUpdate ext token paisa =>
      mc = Some token /\
      exists campaign,
        db !! dec_campaignId d = Some campaign /\
        platform campaign = META /\
        externalId campaign = Some ext /\ ext <> "" /\
        paisa = allocatedBudgetPaisa d
  | LogApplied c _ _ | LogError c => c = dec_campaignId d
  end.
Proof.
  unfold applyDecision. destruct dbT.
  { intros ->%list_elem_of_singleton. reflexivity. }
  destruct (db !! dec_campaignId d) as [campaign|] eqn:Edb;
    [|intros H; inversion H].
  destruct (truthy (externalId campaign)) as [ext|] eqn:Eext;
    [|intros H; inversion H].
  apply truthy_Some in Eext as [Eext Hext].
  destruct (platform campaign) eqn:Ep.
  - destruct gc as [creds|].
    + destruct (truthy (budgetResourceName campaign)) as [name|] eqn:En.
      * apply truthy_Some in En as [En Hname].
        destruct apiT; intros H;
          repeat (apply elem_of_cons in H as [->|H]); try (inversion H; fail);
          try reflexivity;
          (split; [reflexivity|]); exists campaign, ext; auto 10.
      * intros ->%list_elem_of_singleton. reflexivity.
    + destruct mc; intros ->%list_elem_of_singleton; reflexivity.
  - destruct mc as [token|].
    + destruct gc; destruct apiT; intros H;
        repeat (apply elem_of_cons in H as [->|H]); try (inversion H; fail);
        try reflexivity;
        (split; [reflexivity|]); exists campaign; auto 10.
    + destruct gc; intros ->%list_elem_of_singleton; reflexivity.
Qed.

Lemma applyBudgetAllocations_elem gc mc db dbT apiT ds :
  forall i e,
    e ∈ applyBudgetAllocations gc mc db dbT apiT i ds ->
    exists d j, d ∈ ds /\ e ∈ applyDecision gc mc db (dbT j) (apiT j) d.
Proof.
  induction ds as [|d ds IH]; intros i e H.
  - inversion H.
  - cbn [applyBudgetAllocations] in H. apply elem_of_app in H as [H|H].
    + exists d, i. split; [apply list_elem_of_here|exact H].
    + destruct (IH _ _ H) as (d' & j & Hin & He).
      exists d', j. split; [now apply list_elem_of_further|exact He].
Qed.

(** X18.  Every platform call [applyBudgetAllocations] makes belongs to one
    of its decisions: a Google call is made with the Google credentials for
    a GOOGLE campaign that has an external id and a budget resource name,
    and carries the decision's budget times 10,000 (paisa to micros); a
    Meta call is made with the Meta access token for a META campaign, is
    addressed to its external id and carries the decision's budget in
    paisa unchanged. *)
Theorem X18_platform_calls
  (googleCreds metaCreds : option string) (db : gmap string CampaignRow)
  (dbThrows apiThrows : nat -> bool) (decisions : list AllocationDecision)
  (e : ApplyEvent) :
  e ∈ applyBudgetAllocations googleCreds metaCreds db dbThrows apiThrows 0
        decisions ->
  match e with
  | GoogleBudgetUpdate creds name micros =>
      googleCreds = Some creds /\
      exists d campaign ext,
        d ∈ decisions /\
        db !! dec_campaignId d = Some campaign /\
        platform campaign = GOOGLE /\
        externalId campaign = Some ext /\ ext <> "" /\
        budgetResourceName campaign = Some name /\ name <> "" /\
        micros = allocatedBudgetPaisa d * 10000
  | MetaBudgetUpdate ext token paisa =>
      metaCreds = Some token /\
      exists d campaign,
        d ∈ decisions /\
        db !! dec_campaignId d = Some campaign /\
        platform campaign = META /\
        externalId campaign = Some ext /\ ext <> "" /\
        paisa = allocatedBudgetPaisa d
  | LogApplied c _ _ | LogError c =>
      exists d, d ∈ decisions /\ c = dec_campaignId d
  end.
Proof.
  intros H.
  apply applyBudgetAllocations_elem in H as (d & j & Hin & He).
  apply applyDecision_calls in He.
  destruct e as [creds name micros|ext token paisa|c b r|c].
  - destruct He as (Hg & campaign & ext & Hrest).
    split; [exact Hg|]. exists d, campaign, ext. auto.
  - destruct He as (Hm & campaign & Hrest).
    split; [exact Hm|]. exists d, campaign. auto.
  - exists d. auto.
  - exists d. auto.
Qed.

Lemma X18_platform_calls_witness :
  let d := mkDecision "cmp" "set" 1000000 (Finite (1 / 2)) THOMPSON_SAMPLING in
  let db : gmap string CampaignRow :=
    {["cmp" := mkCampaignRow META (Some "ext-1") None]} in
  Some "token" = Some "token" /\
  exists d' campaign,
    d' ∈ [d] /\
    db !! dec_campaignId d' = Some campaign /\
    platform campaign = META /\
    externalId campaign = Some "ext-1" /\ "ext-1" <> "" /\
    1000000 = allocatedBudgetPaisa d'.
Proof.
  intros d db.
  apply (X18_platform_calls None (Some "token") db
           (fun _ => false) (fun _ => false) [d]
           (MetaBudgetUpdate "ext-1" "token" 1000000)).
  cbn [applyBudgetAllocations]. unfold applyDecision.
  cbn [dec_campaignId]. subst db. rewrite lookup_singleton_eq.
  cbn. apply list_elem_of_here.
Defined.

Lemma applyDecision_calls_any_failure gc mc db dbT apiT apiT' d :
  List.filter isPlatformCall (applyDecision gc mc db dbT apiT d)
  = List.filter isPlatformCall (applyDecision gc mc db dbT apiT' d).
Proof.
  unfold applyDecision. destruct dbT; [reflexivity|].
  destruct (db !! dec_campaignId d) as [campaign|]; [|reflexivity].
  destruct (truthy (externalId campaign)) as [ext|]; [|reflexivity].
  destruct (platform campaign), gc, mc,
    (truthy (budgetResourceName campaign)), apiT, apiT'; reflexivity.
Qed.

(** X19.  A platform call that throws is caught inside the loop: the
    platform calls [applyBudgetAllocations] attempts, and their order, are
    the same whichever of them throw, so a failure for one decision never
    keeps a later decision from being pushed. *)
Theorem X19_failures_do_not_stop_the_loop
  (googleCreds metaCreds : option string) (db : gmap string CampaignRow)
  (dbThrows apiThrows apiThrows' : nat -> bool) (i : nat)
  (decisions : list AllocationDecision) :
  List.filter isPlatformCall
    (applyBudgetAllocations googleCreds metaCreds db dbThrows apiThrows i
       decisions)
  = List.filter isPlatformCall
      (applyBudgetAllocations googleCreds metaCreds db dbThrows apiThrows' i
         decisions).
Proof.
  revert i. induction decisions as [|d ds IH]; intros i; [reflexivity|].
  cbn [applyBudgetAllocations]. rewrite !List.filter_app.
  rewrite (IH (S i)).
  now rewrite (applyDecision_calls_any_failure _ _ _ _ (apiThrows i)
                 (apiThrows' i)).
Qed.

(** X20.  The log line "Budget allocation applied" does not mean that a
    budget was pushed: for a campaign with an external id whose lookup does
    not throw, when the campaign is a GOOGLE one and the Google credentials
    or its budget resource name are missing, or a META one and the Meta
    credentials are missing, the decision makes no platform call and is
    still logged as applied. *)
Theorem X20_applied_without_call
  (googleCreds metaCreds : option string) (db : gmap string CampaignRow)
  (apiThrows : bool) (decision : AllocationDecision) (campaign : CampaignRow)
  (ext : string) :
  db !! dec_campaignId decision = Some campaign ->
  externalId campaign = Some ext -> ext <> "" ->
  (platform campaign = GOOGLE /\
   (googleCreds = None \/ truthy (budgetResourceName campaign) = None)) \/
  (platform campaign = META /\ metaCreds = None) ->
  applyDecision googleCreds metaCreds db false apiThrows decision
  = [LogApplied (dec_campaignId decision) (allocatedBudgetPaisa decision)
                (dec_reason decision)].
Proof.
  intros Hdb Hext Hne Hcase. unfold applyDecision. rewrite Hdb.
  unfold truthy at 1. rewrite Hext. case_decide; [contradiction|].
  destruct Hcase as [[Hp [Hg | Hn]] | [Hp Hm]]; rewrite Hp;
    [rewrite Hg | | rewrite Hm].
  - destruct metaCreds; reflexivity.
  - destruct googleCreds; [rewrite Hn|]; reflexivity.
  - destruct googleCreds; reflexivity.
Qed.

Lemma X20_applied_without_call_witness :
  let d := mkDecision "cmp" "set" 1000000 (Finite (1 / 2)) THOMPSON_SAMPLING in
  let db : gmap string CampaignRow :=
    {["cmp" := mkCampaignRow GOOGLE (Some "ext-1") None]} in
  applyDecision (Some "creds") None db false false d
  = [LogApplied "cmp" 1000000 THOMPSON_SAMPLING].
Proof.
  intros d db.
  apply (X20_applied_without_call (Some "creds") None db false d
           (mkCampaignRow GOOGLE (Some "ext-1") None) "ext-1").
  - subst db. apply lookup_singleton_eq.
  - reflexivity.
  - discriminate.
  - left. split; [reflexivity|]. right. reflexivity.
Defined.
